(** * go-asyncjob: the graph container, the step builders and the
      instrumented step body, embedded from the Go sources.

    Layout:
    - [result], [error]: Go's [(T, error)] returns and the error values
      the package builds;
    - Module [graph]: [graph/graph.go] ([AddNode], [Connect], [ToDotGraph]);
    - Module [asynctask]: the part of the go-asynctask dependency the
      step bodies call ([WaitAll], task states);
    - Module [asyncjob]: step and job definitions, the four builders
      ([AddStep], [StepAfter], [StepAfterBoth], [StepFromJobInput]) and
      the instrumented step body;
    - Modules [asyncjob_test] and [SqlSummaryJobLib]: the retry policy,
      the error injectors and the job library of the tests. *)

From stdpp Require Import gmap strings list fin_maps.
From Stdlib Require Import ZArith.

(** Go's [(T, error)] return: exactly one of the two is meaningful. *)
Inductive result (E A : Type) : Type :=
| Ok (a : A)
| Err (e : E).
Arguments Ok {E A} a.
Arguments Err {E A} e.

Definition is_Ok {E A} (r : result E A) : bool :=
  match r with Ok _ => true | Err _ => false end.

(** What a call of a Go function comes to: it returns, or it panics
    with a value. *)
Inductive callResult (A : Type) : Type :=
| Returns (a : A)
| Panics (v : string).
Arguments Returns {A} a.
Arguments Panics {A} v.

(* ================================================================== *)
(** ** graph/graph.go *)
(* ================================================================== *)

Module graph.

(** DotNodeSpec is the specification for a node in a DOT graph. *)
Record DotNodeSpec : Type := {
  ID : string;
  Name : string;
  Tooltip : string;
  Shape : string;
  Style : string;
  FillColor : string
}.

(** DotEdgeSpec is the specification for an edge in DOT graph.  (The two
    Go structs both have [Tooltip] and [Style]; the edge's fields carry
    an [Edge] prefix here.) *)
Record DotEdgeSpec : Type := {
  FromNodeID : string;
  ToNodeID : string;
  EdgeTooltip : string;
  EdgeStyle : string;
  Color : string
}.

(** [type NodeConstrain interface { DotSpec() *DotNodeSpec }] *)
Class NodeConstrain (NT : Type) : Type := DotSpec : NT → DotNodeSpec.

(** The two sentinel errors of the package (declared in a file next to
    graph.go; only their identity matters). *)
Inductive GraphError : Type :=
| ErrDuplicateNode
| ErrConnectNotExistingNode.

Global Instance GraphError_eq_dec : EqDecision GraphError.
Proof. solve_decision. Defined.

Record templateRef : Type := {
  Nodes : list DotNodeSpec;
  Edges : list DotEdgeSpec
}.

Section Graph.
Context {NT : Type} `{NodeConstrain NT}.

Record Edge : Type := { From : NT; To : NT }.

(** Graph hold the nodes and edges of a graph. *)
Record Graph : Type := {
  nodes : gmap string NT;
  nodeEdges : gmap string (list Edge);
  edgeSpecFunc : NT → NT → DotEdgeSpec
}.

Definition NewGraph (f : NT → NT → DotEdgeSpec) : Graph :=
  {| nodes := ∅; nodeEdges := ∅; edgeSpecFunc := f |}.

(** [func (g *Graph[NT]) AddNode(n NT) error]: the returned pair is the
    error ([None] for nil) and the graph after the call. *)
Definition AddNode (g : Graph) (n : NT) : option GraphError * Graph :=
  let nodeKey := ID (DotSpec n) in
  match nodes g !! nodeKey with
  | Some _ => (Some ErrDuplicateNode, g)
  | None =>
      (None, {| nodes := <[nodeKey := n]> (nodes g);
                nodeEdges := nodeEdges g;
                edgeSpecFunc := edgeSpecFunc g |})
  end.

(** [func (g *Graph[NT]) Connect(from, to string) error].  Indexing a Go
    map at an absent key yields the nil slice, hence [default []]. *)
Definition Connect (g : Graph) (from to : string) : option GraphError * Graph :=
  match nodes g !! from with
  | None => (Some ErrConnectNotExistingNode, g)
  | Some nodeFrom =>
      match nodes g !! to with
      | None => (Some ErrConnectNotExistingNode, g)
      | Some nodeTo =>
          (None,
           {| nodes := nodes g;
              nodeEdges :=
                <[from := default [] (nodeEdges g !! from)
                            ++ [ {| From := nodeFrom; To := nodeTo |} ]]>
                  (nodeEdges g);
              edgeSpecFunc := edgeSpecFunc g |})
      end
  end.

(** A Go [range] over a map visits every entry once, in an order the
    language leaves unspecified (and the runtime randomises): a
    traversal is any permutation of the map's entries. *)
Definition MapRange {V : Type} (m : gmap string V) (visit : list (string * V)) : Prop :=
  visit ≡ₚ map_to_list m.

(** A call of one of the two methods that change a graph. *)
Inductive Op : Type :=
| OpAddNode (n : NT)
| OpConnect (from to : string).

(** The call: what it returns, and the graph it leaves. *)
Definition doOp (g : Graph) (op : Op) : option GraphError * Graph :=
  match op with
  | OpAddNode n => AddNode g n
  | OpConnect from to => Connect g from to
  end.

(** The graph after a sequence of calls, whatever each one returned. *)
Definition doOps (g : Graph) (ops : list Op) : Graph :=
  foldl (λ g op, (doOp g op).2) g ops.

(** How many calls of a kind, among a sequence of calls, returned
    nil. *)
Definition isAddNode (op : Op) : bool :=
  match op with OpAddNode _ => true | OpConnect _ _ => false end.

Definition isConnect (op : Op) : bool :=
  match op with OpAddNode _ => false | OpConnect _ _ => true end.

Fixpoint succeeded (kind : Op → bool) (g : Graph) (ops : list Op) : nat :=
  match ops with
  | [] => 0
  | op :: ops =>
      (if kind op && bool_decide ((doOp g op).1 = None) then 1 else 0)
      + succeeded kind (doOp g op).2 ops
  end.

(** Every node is stored under its own ID, and every edge kept for the
    key [k] goes from the node stored under [k] to a node of the
    graph. *)
Definition wellKeyed (g : Graph) : Prop :=
  (∀ k n, nodes g !! k = Some n → ID (DotSpec n) = k)
  ∧ (∀ k es e, nodeEdges g !! k = Some es → e ∈ es →
       nodes g !! k = Some (From e)
       ∧ nodes g !! ID (DotSpec (To e)) = Some (To e)).

Section Render.
  (** [digraphTemplate.Execute(buf, ref)]: the template lives in another
      file of the package; [ToDotGraph] is stated for any template. *)
Context {TE : Type} (digraphTemplate : templateRef → result TE string).

  (** The two loops of [ToDotGraph] along given traversals. *)
Definition collectNodes (visit : list (string * NT)) : list DotNodeSpec :=
    (λ kv, DotSpec kv.2) <$> visit.

Definition collectEdges (g : Graph) (visit : list (string * list Edge)) : list DotEdgeSpec :=
    kv ← visit; (λ edge, edgeSpecFunc g (From edge) (To edge)) <$> kv.2.

Definition ToDotGraph_along (g : Graph)
      (nodeVisit : list (string * NT))
      (edgeVisit : list (string * list Edge)) : result TE string :=
    let nodes := collectNodes nodeVisit in
    let edges := collectEdges g edgeVisit in
    match digraphTemplate {| Nodes := nodes; Edges := edges |} with
    | Err err => Err err
    | Ok s => Ok s
    end.

  (** [func (g *Graph[NT]) ToDotGraph() (string, error)]: the possible
      results of one call. *)
Definition ToDotGraph (g : Graph) (out : result TE string) : Prop :=
    ∃ nodeVisit edgeVisit,
      MapRange (nodes g) nodeVisit ∧
      MapRange (nodeEdges g) edgeVisit ∧
      out = ToDotGraph_along g nodeVisit edgeVisit.
End Render.
End Graph.

Arguments Edge NT : clear implicits.
Arguments Graph NT : clear implicits.
Arguments Op NT : clear implicits.

(** Modelled from the spec: the line the digraph template (its file is
    not among the sources) writes for a node; the exact bytes are not
    fixed by the spec. *)
Definition nodeLine (n : DotNodeSpec) : string :=
  ID n +:+ " [label=" +:+ Name n +:+ " shape=" +:+ Shape n +:+ " style=" +:+ Style n
       +:+ " tooltip=" +:+ Tooltip n +:+ " fillcolor=" +:+ FillColor n +:+ "]; ".

(** Modelled from the spec: the line the digraph template writes for an
    edge, from its source to its target. *)
Definition edgeLine (e : DotEdgeSpec) : string :=
  FromNodeID e +:+ " -> " +:+ ToNodeID e +:+ " [style=" +:+ EdgeStyle e
       +:+ " tooltip=" +:+ EdgeTooltip e +:+ " color=" +:+ Color e +:+ "]; ".

(** Modelled from the spec: the digraph template (its file is not among
    the sources).  The graph module produces a [digraph] text block from
    the nodes and the edges, in the order it is handed them. *)
Definition digraphTemplate (ref : templateRef) : result () string :=
  Ok ("digraph { "
        +:+ foldr (λ n rest, nodeLine n +:+ rest)
                  (foldr (λ e rest, edgeLine e +:+ rest) "}" (Edges ref))
                  (Nodes ref)).

End graph.

(* ================================================================== *)
(** ** Errors, contexts and time *)
(* ================================================================== *)

(** [JobErrorCode]: the codes the package attaches to a [JobError].  The
    sources name [ErrPrecedentStepFailure] and [ErrStepFailed]; the other
    four are the remaining codes of the spec's error surface. *)
Inductive JobErrorCode : Type :=
| ErrPrecedentStepFailure
| ErrStepFailed
| ErrJobSealed
| ErrDuplicateStep
| ErrStepNotFound
| ErrJobCanceled.

Global Instance JobErrorCode_eq_dec : EqDecision JobErrorCode.
Proof. solve_decision. Defined.

(** Values of Go's [error] interface that occur in the package: plain
    message errors ([fmt.Errorf], [errors.New], what a user step function
    returns) and the package's own [*JobError]. *)
#[warnings="-register-all"]
Inductive error : Type :=
| errorString (msg : string)
| JobError (Code : JobErrorCode) (StepName : string) (Message : string)
           (StepError : option error).

Abbreviation res := (result error).

(** Modelled from the spec: [newJobError] (the file declaring [JobError]
    is not among the sources).  The spec's error surface is
    [JobError{code, stepInstance?, cause}]. *)
Definition newJobError (code : JobErrorCode) (message : string) : error :=
  JobError code "" message None.

(** Modelled from the spec: [newStepError] (same file).  A step error is
    [StepError{stepName, cause}] and reaches callers with code
    [StepFailed]. *)
Definition newStepError (stepName : string) (stepErr : error) : error :=
  JobError ErrStepFailed stepName "" (Some stepErr).

(** The [Code] field of a [*JobError], if the error is one. *)
Definition error_Code (e : error) : option JobErrorCode :=
  match e with
  | errorString _ => None
  | JobError c _ _ _ => Some c
  end.

(** [errors.Unwrap] on the package's errors. *)
Definition error_Unwrap (e : error) : option error :=
  match e with
  | errorString _ => None
  | JobError _ _ _ cause => cause
  end.

(** Wall-clock instants and [time.Duration] (an int64 count of
    nanoseconds); [Time.Sub] saturates at the int64 bounds. *)
Definition time_Time := Z.
Definition time_Duration := Z.

Definition maxDuration : time_Duration := (2 ^ 63 - 1)%Z.
Definition minDuration : time_Duration := (- 2 ^ 63)%Z.

Definition time_Sub (t u : time_Time) : time_Duration :=
  let d := (t - u)%Z in
  if (maxDuration <? d)%Z then maxDuration
  else if (d <? minDuration)%Z then minDuration
  else d.

(** Go's [int] on the 64-bit targets: increments wrap around. *)
Definition wrap_int (z : Z) : Z := ((z + 2 ^ 63) `mod` 2 ^ 64 - 2 ^ 63)%Z.

(** A [context.Context], as far as cancellation goes: the instant at
    which its [Done] channel closes, if it ever does. *)
Record Context : Type := { cancelAt : option time_Time }.

Definition background : Context := {| cancelAt := None |}.

Definition ctx_canceled (ctx : Context) (now : time_Time) : bool :=
  match cancelAt ctx with
  | Some t => bool_decide (t ≤ now)%Z
  | None => false
  end.

(* ================================================================== *)
(** ** go-asynctask: tasks and [WaitAll] *)
(* ================================================================== *)

Module asynctask.

(** Modelled from the spec: the task primitive of the go-asynctask
    dependency.  States [Created → Running → (Completed | Failed |
    Canceled)]; a terminated task memoizes its result or its error. *)
Inductive Task (T : Type) : Type :=
| Created
| Running
| Completed (result : T)
| Failed (err : error)
| Canceled (err : error).
Arguments Created {T}.
Arguments Running {T}.
Arguments Completed {T} result.
Arguments Failed {T} err.
Arguments Canceled {T} err.

(** Modelled from the spec: [Waitable], a task seen without its result
    type. *)
Abbreviation Waitable := (Task ()).

(** A task as a [Waitable]. *)
Definition toWaitable {T} (t : Task T) : Waitable :=
  match t with
  | Created => Created
  | Running => Running
  | Completed _ => Completed ()
  | Failed e => Failed e
  | Canceled e => Canceled e
  end.

(** Modelled from the spec: the terminal states are [Completed],
    [Failed] and [Canceled]. *)
Definition IsTerminalState {T} (t : Task T) : bool :=
  match t with
  | Created | Running => false
  | _ => true
  end.

(** The task completed successfully. *)
Definition completed {T} (t : Task T) : bool :=
  match t with Completed _ => true | _ => false end.

(** The error a task terminated with, if it did not complete. *)
Definition failure {T} (t : Task T) : option error :=
  match t with
  | Failed e | Canceled e => Some e
  | _ => None
  end.

(** The first failure among the tasks, in the order of the list. *)
Fixpoint firstFailure {T} (tasks : list (Task T)) : option error :=
  match tasks with
  | [] => None
  | t :: rest =>
      match failure t with
      | Some e => Some e
      | None => firstFailure rest
      end
  end.

(** Modelled from the spec: [WaitAll(ctx, options, tasks...)] succeeds
    iff all tasks complete successfully; on a failure it returns that
    failure at once, whatever the other tasks do.  The outer [option] is
    [None] while the call is still blocked (no task has failed and some
    task has not terminated). *)
Definition WaitAll (ctx : Context) (tasks : list Waitable) : option (option error) :=
  match firstFailure tasks with
  | Some e => Some (Some e)
  | None => if forallb completed tasks then Some None else None
  end.

(** Modelled from the spec: [Task.Wait(ctx)] blocks until termination or
    until [ctx] is canceled; a terminated task hands out its memoized
    result. *)
Definition Wait {T} (ctx : Context) (now : time_Time) (t : Task T) : option (res T) :=
  match t with
  | Completed v => Some (Ok v)
  | Failed e | Canceled e => Some (Err e)
  | Created | Running =>
      if ctx_canceled ctx now then Some (Err (errorString "context canceled"))
      else None
  end.

End asynctask.

(* ================================================================== *)
(** ** asyncjob: definitions, builders, instrumented step bodies *)
(* ================================================================== *)

Module asyncjob.

(** [type RetryPolicy interface { ShouldRetry(error) bool;
    SleepInterval() time.Duration }].  Implementations are objects
    behind a pointer and may change on every call, so each method also
    returns the object as the call leaves it. *)
Class RetryPolicy (P : Type) : Type := {
  ShouldRetry : P → error → bool * P;
  SleepInterval : P → time_Duration * P
}.

(** The kinds of step: the builders under study make [stepTypeTask]
    steps; the spec lists Root, Task and InputParam. *)
Inductive stepType : Type :=
| stepTypeTask
| stepTypeRoot
| stepTypeParam.

(** The states of a step instance the bodies assign, and the state of a
    fresh instance. *)
Inductive StepState : Type :=
| StepStatePending
| StepStateRunning
| StepStateFailed
| StepStateCompleted.

Global Instance StepState_eq_dec : EqDecision StepState.
Proof. solve_decision. Defined.

(** Modelled from the spec: [RetryReport{count, lastError}], the report
    the retry driver fills in (its declaration is not among the
    sources). *)
Record RetryReport : Type := {
  Count : nat;
  LastError : option error
}.

(** [StepExecutionData], with the three fields the builders write. *)
Record StepExecutionData : Type := {
  StartTime : time_Time;
  Duration : time_Duration;
  Retried : option RetryReport
}.

(** What a step body does that an observer of the step instance can see,
    in order: the writes to the instance, the calls of the user step
    function (numbered) and the sleeps of the retry driver. *)
Inductive Event : Type :=
| SetStartTime (t : time_Time)
| SetState (s : StepState)
| SetDuration (d : time_Duration)
| SetRetried (r : RetryReport)
| Invoke (n : nat)
| Sleep (d : time_Duration).

Section Job.
(** Step results are type-erased: the Go type parameters [T], [S], [R],
    [ST] all stand for values of [Val].  [P] is the type of the retry
    policy objects. *)
Context {Val : Type} {P : Type} `{RetryPolicy P}.

(** A step function is user code with effects of its own (the tests'
    error injectors count down).  Its behaviour is given per
    invocation: at its [n]-th call it returns a result and takes some
    time to do so. *)
Definition Outcome : Type := res Val * N.

(** [asynctask.AsyncFunc], [asynctask.ContinueFunc] and
    [asynctask.AfterBothFunc]: a step function without input, with one
    input and with two. *)
Definition AsyncFunc : Type := Context → nat → Outcome.
Definition ContinueFunc : Type := Context → Val → nat → Outcome.
Definition AfterBothFunc : Type := Context → Val → Val → nat → Outcome.

(** [StepExecutionOptions]: the fields the builders read, plus the
    context enricher the spec lists among the options. *)
Record StepExecutionOptions : Type := {
  RetryPolicy' : option P;
  ContextPolicy : option (Context → Context);
  DependOn : list string
}.

(** [ExecutionOptionPreparer]: an option decorator. *)
Definition ExecutionOptionPreparer : Type :=
  StepExecutionOptions → StepExecutionOptions.

(** The [instanceCreator] closures of the three builders, by the
    variables they capture (besides the step definition itself). *)
Inductive InstanceCreator : Type :=
| AddStep_creator (stepFunc : AsyncFunc)
| StepAfter_creator (parentStep : string) (stepFunc : ContinueFunc)
| StepAfterBoth_creator (parentStepT parentStepS : string)
                        (stepFunc : AfterBothFunc).

(** [StepDefinition].  [addr] is the address of the object: builders
    compare step definitions as pointers ([get != parentStep]). *)
Record StepDefinition : Type := {
  addr : nat;
  name : string;
  stepType_ : stepType;
  executionOptions : StepExecutionOptions;
  instanceCreator : option InstanceCreator
}.

(** [GetName()] and [DependsOn()] of a step definition. *)
Definition GetName (sd : StepDefinition) : string := name sd.
Definition DependsOn (sd : StepDefinition) : list string :=
  DependOn (executionOptions sd).

(** Modelled from the spec: the option decorator [executeAfter(stepDef)]
    (the decorators' file is not among the sources) declares an
    ordering-only dependency on another step. *)
Definition ExecuteAfter (step : StepDefinition) : ExecutionOptionPreparer :=
  λ options,
    {| RetryPolicy' := RetryPolicy' options;
       ContextPolicy := ContextPolicy options;
       DependOn := DependOn options ++ [GetName step] |}.

(** Modelled from the spec: [withRetry(policy)] sets the retry policy. *)
Definition WithRetry (policy : P) : ExecutionOptionPreparer :=
  λ options,
    {| RetryPolicy' := Some policy;
       ContextPolicy := ContextPolicy options;
       DependOn := DependOn options |}.

(** Modelled from the spec: [withContextEnrichment(fn)] sets the
    context enricher. *)
Definition WithContextEnrichment (fn : Context → Context) : ExecutionOptionPreparer :=
  λ options,
    {| RetryPolicy' := RetryPolicy' options;
       ContextPolicy := Some fn;
       DependOn := DependOn options |}.

(** Modelled from the spec: [newStepDefinition(name, kind, options...)]
    (its file is not among the sources) builds the definition and
    applies the decorators in order.  [a] is the address of the new
    object. *)
Definition newStepDefinition (a : nat) (stepName : string) (ty : stepType)
    (optionDecorators : list ExecutionOptionPreparer) : StepDefinition :=
  {| addr := a;
     name := stepName;
     stepType_ := ty;
     executionOptions :=
       foldl (λ options decorator, decorator options)
             {| RetryPolicy' := None; ContextPolicy := None; DependOn := [] |}
             optionDecorators;
     instanceCreator := None |}.

(** [stepD.executionOptions.DependOn = deps] *)
Definition set_DependOn (sd : StepDefinition) (deps : list string) : StepDefinition :=
  {| addr := addr sd;
     name := name sd;
     stepType_ := stepType_ sd;
     executionOptions :=
       {| RetryPolicy' := RetryPolicy' (executionOptions sd);
          ContextPolicy := ContextPolicy (executionOptions sd);
          DependOn := deps |};
     instanceCreator := instanceCreator sd |}.

(** [stepD.instanceCreator = c] *)
Definition set_instanceCreator (sd : StepDefinition) (c : InstanceCreator) : StepDefinition :=
  {| addr := addr sd;
     name := name sd;
     stepType_ := stepType_ sd;
     executionOptions := executionOptions sd;
     instanceCreator := Some c |}.

(** Modelled from the spec: a step definition as a graph node.  The
    node ID is the step name (predecessors are referred to by name);
    the other attributes only matter to the renderer. *)
Global Instance StepDefinition_DotSpec : graph.NodeConstrain StepDefinition :=
  λ sd, {| graph.ID := GetName sd;
           graph.Name := GetName sd;
           graph.Tooltip := "";
           graph.Shape := "box";
           graph.Style := "filled";
           graph.FillColor := "gray" |}.

(** Modelled from the spec: the ID under which a step definition is a
    node of the graph. *)
Definition getID (sd : StepDefinition) : string := graph.ID (graph.DotSpec sd).

(** Modelled from the spec: the edge-spec function of the definition
    graph decorates the edge between two step definitions. *)
Definition connectStepDefinition (from to : StepDefinition) : graph.DotEdgeSpec :=
  {| graph.FromNodeID := getID from;
     graph.ToNodeID := getID to;
     graph.EdgeTooltip := "";
     graph.EdgeStyle := "bold";
     graph.Color := "black" |}.

(** Modelled from the spec: the job definition (its file is not among
    the sources): name, root step, steps by name, the graph of edges
    predecessor → successor, and the [sealed] latch. *)
Record JobDefinition : Type := {
  jobName : string;
  sealed : bool;
  steps : gmap string StepDefinition;
  stepsDag : graph.Graph StepDefinition;
  rootStep : StepDefinition
}.

(** Modelled from the spec: [new(name)] creates the root step; the root
    is a step of the job like the others and a node of its graph.  It
    takes the job's name.  [a] is the address of the root step. *)
Definition NewJobDefinition (a : nat) (jobname : string) : JobDefinition :=
  let root := newStepDefinition a jobname stepTypeRoot [] in
  {| jobName := jobname;
     sealed := false;
     steps := {[ GetName root := root ]};
     stepsDag := (graph.AddNode (graph.NewGraph connectStepDefinition) root).2;
     rootStep := root |}.

(** Modelled from the spec: [GetStep(name)] looks the step up by name;
    its second result is whether there is one. *)
Definition GetStep (j : JobDefinition) (stepName : string) : option StepDefinition :=
  steps j !! stepName.

(** Modelled from the spec: [rootStep()], the synthetic root step. *)
Definition RootStep (j : JobDefinition) : StepDefinition := rootStep j.

(** Modelled from the spec: [sealed()], the query of the latch. *)
Definition Sealed (j : JobDefinition) : bool := sealed j.

(** Modelled from the spec: [seal()], the explicit seal; the latch goes
    from false to true and stays. *)
Definition Seal (j : JobDefinition) : JobDefinition :=
  {| jobName := jobName j;
     sealed := true;
     steps := steps j;
     stepsDag := stepsDag j;
     rootStep := rootStep j |}.

(** Modelled from the spec: the method [JobDefinition.AddStep(step,
    precedingSteps...)] the builders end with (its file is not among the
    sources).  While unsealed, steps may be added: a node for the step
    and an edge from each predecessor; once sealed, mutation fails; a
    reused step name is refused with no side effect.  The first
    component is what the method reports. *)
Definition JobDefinition_AddStep (j : JobDefinition) (step : StepDefinition)
    (precedingSteps : list StepDefinition) : option error * JobDefinition :=
  if sealed j then (Some (newJobError ErrJobSealed ""), j)
  else
    match steps j !! GetName step with
    | Some _ => (Some (newJobError ErrDuplicateStep ""), j)
    | None =>
        let g := (graph.AddNode (stepsDag j) step).2 in
        let g := foldl (λ g precedingStep,
                          (graph.Connect g (getID precedingStep) (getID step)).2)
                       g precedingSteps in
        (None,
         {| jobName := jobName j;
            sealed := sealed j;
            steps := <[GetName step := step]> (steps j);
            stepsDag := g;
            rootStep := rootStep j |})
    end.

(** The loop of [getDependsOnSteps] over the names still to look up,
    returning at the first name the job does not have. *)
Fixpoint getDependsOnSteps_from (deps : list string) (j : JobDefinition)
    (precedingDefSteps : list StepDefinition) : res (list StepDefinition) :=
  match deps with
  | [] => Ok precedingDefSteps
  | depStepName :: rest =>
      match GetStep j depStepName with
      | Some depStep => getDependsOnSteps_from rest j (precedingDefSteps ++ [depStep])
      | None => Err (errorString ("step [" +:+ depStepName +:+ "] not found"))
      end
  end.

(** [getDependsOnSteps]: the step definitions [step] depends on. *)
Definition getDependsOnSteps (step : StepDefinition) (j : JobDefinition)
    : res (list StepDefinition) :=
  getDependsOnSteps_from (DependsOn step) j [].

(** [AddStep]: add a step without take input.  The pair is the Go
    return value and the job definition after the call. *)
Definition AddStep (a : nat) (bCtx : Context) (j : JobDefinition) (stepName : string)
    (stepFunc : AsyncFunc) (optionDecorators : list ExecutionOptionPreparer)
    : res StepDefinition * JobDefinition :=
  let stepD := newStepDefinition a stepName stepTypeTask optionDecorators in
  match getDependsOnSteps stepD j with
  | Err err => (Err err, j)
  | Ok precedingDefSteps =>
      let '(precedingDefSteps, stepD) :=
        if bool_decide (length precedingDefSteps = 0)
        then (precedingDefSteps ++ [RootStep j],
              set_DependOn stepD (DependsOn stepD ++ [GetName (RootStep j)]))
        else (precedingDefSteps, stepD) in
      let stepD := set_instanceCreator stepD (AddStep_creator stepFunc) in
      let j := (JobDefinition_AddStep j stepD precedingDefSteps).2 in
      (Ok stepD, j)
  end.

(** The check the data-parent builders start with:
    [get, ok := j.GetStep(parentStep.GetName()); !ok || get != parentStep]. *)
Definition parentMissing (j : JobDefinition) (parentStep : StepDefinition) : bool :=
  match GetStep j (GetName parentStep) with
  | Some get => negb (bool_decide (addr get = addr parentStep))
  | None => true
  end.

(** [fmt.Errorf("step [%s] not found in job", parentStep.GetName())] *)
Definition notFoundInJob (parentStep : StepDefinition) : error :=
  errorString ("step [" +:+ GetName parentStep +:+ "] not found in job").

(** [StepAfter]: add a step after a preceding step, also take input from
    that preceding step. *)
Definition StepAfter (a : nat) (bCtx : Context) (j : JobDefinition) (stepName : string)
    (parentStep : StepDefinition) (stepFunc : ContinueFunc)
    (optionDecorators : list ExecutionOptionPreparer)
    : res StepDefinition * JobDefinition :=
  if parentMissing j parentStep then (Err (notFoundInJob parentStep), j)
  else
    let stepD := newStepDefinition a stepName stepTypeTask
                   (optionDecorators ++ [ExecuteAfter parentStep]) in
    match getDependsOnSteps stepD j with
    | Err err => (Err err, j)
    | Ok precedingDefSteps =>
        let precedingDefSteps :=
          if bool_decide (length precedingDefSteps = 0)
          then precedingDefSteps ++ [RootStep j]
          else precedingDefSteps in
        let stepD := set_instanceCreator stepD
                       (StepAfter_creator (GetName parentStep) stepFunc) in
        let j := (JobDefinition_AddStep j stepD precedingDefSteps).2 in
        (Ok stepD, j)
    end.

(** [StepAfterBoth]: add a step after both preceding steps, also take
    input from both preceding steps. *)
Definition StepAfterBoth (a : nat) (bCtx : Context) (j : JobDefinition) (stepName : string)
    (parentStepT parentStepS : StepDefinition) (stepFunc : AfterBothFunc)
    (optionDecorators : list ExecutionOptionPreparer)
    : res StepDefinition * JobDefinition :=
  if parentMissing j parentStepT then (Err (notFoundInJob parentStepT), j)
  else if parentMissing j parentStepS then (Err (notFoundInJob parentStepS), j)
  else
    let stepD := newStepDefinition a stepName stepTypeTask
                   (optionDecorators ++ [ExecuteAfter parentStepT; ExecuteAfter parentStepS]) in
    match getDependsOnSteps stepD j with
    | Err err => (Err err, j)
    | Ok precedingDefSteps =>
        let precedingDefSteps :=
          if bool_decide (length precedingDefSteps = 0)
          then precedingDefSteps ++ [RootStep j]
          else precedingDefSteps in
        let stepD := set_instanceCreator stepD
                       (StepAfterBoth_creator (GetName parentStepT) (GetName parentStepS) stepFunc) in
        let j := (JobDefinition_AddStep j stepD precedingDefSteps).2 in
        (Ok stepD, j)
    end.

(** [StepFromJobInput]: steps that consumes job input. *)
Definition StepFromJobInput (a : nat) (bCtx : Context) (j : JobDefinition) (stepName : string)
    (stepFunc : ContinueFunc) (optionDecorators : list ExecutionOptionPreparer)
    : res StepDefinition * JobDefinition :=
  StepAfter a bCtx j stepName (rootStep j) stepFunc optionDecorators.


(* ---------------------------------------------------------------- *)
(** *** Step instances and the instrumented step body *)

(** [StepInstance]: the runtime counterpart of a step definition.  The
    [task] handle is assigned when the instance creator starts the
    body; until then it is a task that has not started. *)
Record StepInstance : Type := {
  stepDefinition : StepDefinition;
  state : StepState;
  executionData : StepExecutionData;
  task : asynctask.Task Val
}.

(** Modelled from the spec: [newStepInstance(stepD)] (its file is not
    among the sources): a fresh instance is [Pending] with zero
    execution data. *)
Definition newStepInstance (stepD : StepDefinition) : StepInstance :=
  {| stepDefinition := stepD;
     state := StepStatePending;
     executionData := {| StartTime := 0%Z; Duration := 0%Z; Retried := None |};
     task := asynctask.Created |}.

(** [GetName()] of a step instance. *)
Definition StepInstance_GetName (si : StepInstance) : string :=
  GetName (stepDefinition si).

(** [Waitable()] of a step instance: its task. *)
Definition StepInstance_Waitable (si : StepInstance) : asynctask.Waitable :=
  asynctask.toWaitable (task si).

(** What a running step body can read and write: the clock, the retry
    policy object its definition points to ([None] for nil), its own
    step instance, how often the user step function has been called,
    and the trace of what happened. *)
Record World : Type := {
  clock : time_Time;
  policy : option P;
  instance : StepInstance;
  calls : nat;
  trace : list Event
}.

(** Computations over the world.  [None]: the call does not return
    (it is blocked, or the retry loop outruns its fuel). *)
Definition M (A : Type) : Type := World → option (A * World).

Global Instance M_ret : MRet M := λ A a w, Some (a, w).
Global Instance M_bind : MBind M :=
  λ A B f m w, match m w with
               | Some (a, w') => f a w'
               | None => None
               end.

(** The computation that does not return. *)
Definition blocked {A} : M A := λ _, None.

(** [time.Now()] *)
Definition time_Now : M time_Time := λ w, Some (clock w, w).

(** Reading the step instance and the policy pointer. *)
Definition get_instance : M StepInstance := λ w, Some (instance w, w).

Definition get_policy : M (option P) := λ w, Some (policy w, w).

(** A write to the step instance, recorded on the trace. *)
Definition write (f : StepInstance → StepInstance) (e : Event) : M () :=
  λ w, Some ((), {| clock := clock w;
                    policy := policy w;
                    instance := f (instance w);
                    calls := calls w;
                    trace := trace w ++ [e] |}).

(** The step instance with its execution data changed. *)
Definition with_executionData (f : StepExecutionData → StepExecutionData)
    (si : StepInstance) : StepInstance :=
  {| stepDefinition := stepDefinition si;
     state := state si;
     executionData := f (executionData si);
     task := task si |}.

(** [stepInstance.executionData.StartTime = t] *)
Definition set_StartTime (t : time_Time) : M () :=
  write (with_executionData
           (λ d, {| StartTime := t; Duration := Duration d; Retried := Retried d |}))
        (SetStartTime t).

(** [stepInstance.executionData.Duration = d] *)
Definition set_Duration (dur : time_Duration) : M () :=
  write (with_executionData
           (λ d, {| StartTime := StartTime d; Duration := dur; Retried := Retried d |}))
        (SetDuration dur).

(** [stepInstance.executionData.Retried = r], and the driver's updates
    of the report through that pointer. *)
Definition set_Retried (r : RetryReport) : M () :=
  write (with_executionData
           (λ d, {| StartTime := StartTime d; Duration := Duration d; Retried := Some r |}))
        (SetRetried r).

(** [stepInstance.state = s] *)
Definition set_state (s : StepState) : M () :=
  write (λ si, {| stepDefinition := stepDefinition si;
                  state := s;
                  executionData := executionData si;
                  task := task si |})
        (SetState s).

(** One call of the user step function: its result, the time it takes,
    one more call on the count. *)
Definition invoke (f : nat → Outcome) : M (res Val) :=
  λ w, let '(r, d) := f (calls w) in
       Some (r, {| clock := (clock w + Z.of_N d)%Z;
                   policy := policy w;
                   instance := instance w;
                   calls := S (calls w);
                   trace := trace w ++ [Invoke (calls w)] |}).

(** A call of a method of the policy object. *)
Definition call_policy {A} (method : P → A * P) : M A :=
  λ w, match policy w with
       | Some p =>
           let '(a, p') := method p in
           Some (a, {| clock := clock w;
                       policy := Some p';
                       instance := instance w;
                       calls := calls w;
                       trace := trace w |})
       | None => None
       end.

(** A sleep that cancellation of [ctx] interrupts; a negative or zero
    duration returns at once. *)
Definition sleep (ctx : Context) (d : time_Duration) : M () :=
  λ w, let wake := (clock w + Z.max 0 d)%Z in
       let wake := match cancelAt ctx with
                   | Some t => Z.max (clock w) (Z.min t wake)
                   | None => wake
                   end in
       Some ((), {| clock := wake;
                    policy := policy w;
                    instance := instance w;
                    calls := calls w;
                    trace := trace w ++ [Sleep d] |}).

(** An update of the retry report through the pointer the driver
    holds. *)
Definition update_report (f : RetryReport → RetryReport) : M () :=
  si ← get_instance;
  match Retried (executionData si) with
  | Some r => set_Retried (f r)
  | None => blocked
  end.

(** Modelled from the spec: the retry driver [newRetryer(policy, report,
    function).Run()] (its file is not among the sources).  It runs
    attempt 1; on error [e]: if the context is canceled it returns [e]
    without retrying; if [policy.shouldRetry(e)] is false it returns
    [e]; else it sleeps [policy.sleepInterval()], increments the count
    and re-runs.  The report keeps the count and the last error.
    [fuel] bounds the number of attempts the model follows. *)
Fixpoint retryer_Run (fuel : nat) (ctx : Context) (function : M (res Val))
    : M (res Val) :=
  match fuel with
  | O => blocked
  | S fuel =>
      r ← function;
      match r with
      | Ok v => mret (Ok v)
      | Err e =>
          update_report (λ rep, {| Count := Count rep; LastError := Some e |});;
          now ← time_Now;
          if ctx_canceled ctx now then mret (Err e)
          else
            retry ← call_policy (λ p, ShouldRetry p e);
            if retry : bool then
              d ← call_policy SleepInterval;
              sleep ctx d;;
              update_report (λ rep, {| Count := S (Count rep); LastError := LastError rep |});;
              retryer_Run fuel ctx function
            else mret (Err e)
      end
  end.

(** [asynctask.WaitAll(ctx, &asynctask.WaitAllOptions{}, precedingTasks...)]
    as a step of the body. *)
Definition waitAll (ctx : Context) (precedingTasks : list asynctask.Waitable)
    : M (option error) :=
  λ w, match asynctask.WaitAll ctx precedingTasks with
       | Some err => Some (err, w)
       | None => None
       end.

(** The middle of [instrumentedFunc]: with a retry policy, a fresh
    report and the user function under the retry driver; without one,
    the user function alone. *)
Definition runStepFunc (fuel : nat) (ctx : Context) (stepFunc : nat → Outcome)
    : M (res Val) :=
  retryPolicy ← get_policy;
  match retryPolicy with
  | Some _ =>
      set_Retried {| Count := 0; LastError := None |};;
      retryer_Run fuel ctx (invoke stepFunc)
  | None => invoke stepFunc
  end.

(** The body of [instrumentedFunc]: the three builders carry the same
    text, up to the arguments [stepFunc] is applied to; [stepFunc] here
    is the user function already applied to them. *)
Definition instrumentedFunc (fuel : nat) (stepName : string)
    (precedingTasks : list asynctask.Waitable)
    (ctx : Context) (stepFunc : nat → Outcome) : M (res Val) :=
  err ← waitAll ctx precedingTasks;
  match err with
  | Some _ => mret (Err (newJobError ErrPrecedentStepFailure ""))
  | None =>
      now ← time_Now;
      set_StartTime now;;
      set_state StepStateRunning;;
      r ← runStepFunc fuel ctx stepFunc;
      now ← time_Now;
      si ← get_instance;
      set_Duration (time_Sub now (StartTime (executionData si)));;
      match r with
      | Err err =>
          set_state StepStateFailed;;
          mret (Err (newStepError stepName err))
      | Ok result =>
          set_state StepStateCompleted;;
          mret (Ok result)
      end
  end.

(** [instrumentedFunc] of [AddStep]: [func(ctx)] returning [*ST, error]. *)
Definition AddStep_instrumentedFunc (fuel : nat) (stepName : string)
    (stepFunc : AsyncFunc) (precedingTasks : list asynctask.Waitable)
    (ctx : Context) : M (res Val) :=
  instrumentedFunc fuel stepName precedingTasks ctx (stepFunc ctx).

(** [instrumentedFunc] of [StepAfter]: [func(ctx, t *T)] returning [*S, error]. *)
Definition StepAfter_instrumentedFunc (fuel : nat) (stepName : string)
    (stepFunc : ContinueFunc) (precedingTasks : list asynctask.Waitable)
    (ctx : Context) (t : Val) : M (res Val) :=
  instrumentedFunc fuel stepName precedingTasks ctx (stepFunc ctx t).

(** [instrumentedFunc] of [StepAfterBoth]:
    [func(ctx, t *T, s *S)] returning [*R, error]. *)
Definition StepAfterBoth_instrumentedFunc (fuel : nat) (stepName : string)
    (stepFunc : AfterBothFunc) (precedingTasks : list asynctask.Waitable)
    (ctx : Context) (t s : Val) : M (res Val) :=
  instrumentedFunc fuel stepName precedingTasks ctx (stepFunc ctx t s).

(** The world a step body starts in: a fresh instance of its definition
    and the policy object the definition points to. *)
Definition startWorld (now : time_Time) (stepD : StepDefinition) : World :=
  {| clock := now;
     policy := RetryPolicy' (executionOptions stepD);
     instance := newStepInstance stepD;
     calls := 0;
     trace := [] |}.

(* ---------------------------------------------------------------- *)
(** *** Job instances *)

(** Modelled from the spec: the job instance (its file is not among the
    sources): the input, the step instances by name, and the order in
    which they were added. *)
Record JobInstance : Type := {
  input : Val;
  stepInstances : gmap string StepInstance;
  insertionOrder : list string
}.

(** Modelled from the spec: [GetStepInstance(name)] looks the instance up
    by name; its second result is whether there is one. *)
Definition GetStepInstance (ji : JobInstance) (stepName : string)
    : option StepInstance :=
  stepInstances ji !! stepName.

(** The loop of [getDependsOnStepInstances] over the names still to look
    up, returning at the first name the instance does not have. *)
Fixpoint getDependsOnStepInstances_from (deps : list string) (ji : JobInstance)
    (precedingInstances : list StepInstance)
    (precedingTasks : list asynctask.Waitable)
    : res (list StepInstance * list asynctask.Waitable) :=
  match deps with
  | [] => Ok (precedingInstances, precedingTasks)
  | depStepName :: rest =>
      match GetStepInstance ji depStepName with
      | Some depStep =>
          getDependsOnStepInstances_from rest ji
            (precedingInstances ++ [depStep])
            (precedingTasks ++ [StepInstance_Waitable depStep])
      | None => Err (errorString ("runtime step [" +:+ depStepName +:+ "] not found"))
      end
  end.

(** [getDependsOnStepInstances]: the instances and the tasks of the
    steps [stepD] depends on, in the order of [DependsOn]. *)
Definition getDependsOnStepInstances (stepD : StepDefinition) (ji : JobInstance)
    : res (list StepInstance * list asynctask.Waitable) :=
  getDependsOnStepInstances_from (DependsOn stepD) ji [] [].

(** [precedingInstances, precedingTasks, _ := getDependsOnStepInstances(stepD, ji)]:
    the instance creators ignore the error, and are left with nil
    slices when there is one. *)
Definition precedingTasksOf (stepD : StepDefinition) (ji : JobInstance)
    : list asynctask.Waitable :=
  match getDependsOnStepInstances stepD ji with
  | Ok (_, precedingTasks) => precedingTasks
  | Err _ => []
  end.

(** Modelled from the spec: the tasks of a job instance, in insertion
    order. *)
Definition jobTasks (ji : JobInstance) : list (asynctask.Task Val) :=
  omap (λ stepName, task <$> GetStepInstance ji stepName) (insertionOrder ji).

(** Modelled from the spec: awaiting every task; the outcome is the
    first failure in the order of the list, nil when there is none, and
    [None] as long as a wait blocks. *)
Fixpoint awaitEach (ctx : Context) (now : time_Time)
    (tasks : list (asynctask.Task Val)) : option (option error) :=
  match tasks with
  | [] => Some None
  | t :: rest =>
      match asynctask.Wait ctx now t with
      | None => None
      | Some r =>
          match awaitEach ctx now rest with
          | None => None
          | Some later =>
              Some (match r with Err e => Some e | Ok _ => later end)
          end
      end
  end.

(** Modelled from the spec: [JobInstance.Wait(ctx)] (its file is not
    among the sources) awaits every step instance's task and returns
    the first step failure in insertion order, otherwise nil.  The pair
    is the outcome ([None] while blocked) and the instance after the
    call. *)
Definition JobInstance_Wait (ctx : Context) (now : time_Time) (ji : JobInstance)
    : option (option error) * JobInstance :=
  (awaitEach ctx now (jobTasks ji), ji).

(** Calls of [Wait] one after the other, each on the instance the
    previous call left, with the context and the time of each call. *)
Fixpoint JobInstance_Waits (calls : list (Context * time_Time)) (ji : JobInstance)
    : list (option (option error)) :=
  match calls with
  | [] => []
  | (ctx, now) :: rest =>
      let '(out, ji) := JobInstance_Wait ctx now ji in
      out :: JobInstance_Waits rest ji
  end.

(** A job instance has terminated when every step instance's task is in
    a terminal state. *)
Definition terminated (ji : JobInstance) : Prop :=
  ∀ stepName si, stepInstances ji !! stepName = Some si →
                 asynctask.IsTerminalState (task si) = true.


(* ---------------------------------------------------------------- *)
(** *** Notions the statements below are phrased with *)

(** The events of the retry driver and of the user function: no write
    to the step's state, start time or duration. *)
Definition driver_event (e : Event) : bool :=
  match e with
  | Invoke _ | Sleep _ | SetRetried _ => true
  | SetStartTime _ | SetState _ | SetDuration _ => false
  end.

Definition is_Invoke (e : Event) : bool :=
  match e with Invoke _ => true | _ => false end.

(** From [w] to [w1] only the driver and the user function acted: the
    trace grew by the events [mid], all of them theirs, and the step's
    state, start time and duration are as they were. *)
Definition driverOnly (w w1 : World) (mid : list Event) : Prop :=
  trace w1 = trace w ++ mid ∧
  forallb driver_event mid = true ∧
  state (instance w1) = state (instance w) ∧
  StartTime (executionData (instance w1)) = StartTime (executionData (instance w)) ∧
  Duration (executionData (instance w1)) = Duration (executionData (instance w)).

(** [policyAllows p errs]: the policy object [p] answers [ShouldRetry]
    with true for each of the errors [errs] in turn, [SleepInterval]
    being called after each answer, as the retry driver does. *)
Fixpoint policyAllows (p : P) (errs : list error) : bool :=
  match errs with
  | [] => true
  | e :: rest =>
      let '(retry, p) := ShouldRetry p e in
      if retry then policyAllows (SleepInterval p).2 rest else false
  end.

(** The policy object after these rounds. *)
Fixpoint policyAfter (p : P) (errs : list error) : P :=
  match errs with
  | [] => p
  | e :: rest => policyAfter (SleepInterval (ShouldRetry p e).2).2 rest
  end.

(** The step function fails with [errs], one after the other, from its
    [n]-th call on. *)
Definition failsWith (stepFunc : nat → Outcome) (n : nat) (errs : list error) : Prop :=
  (λ i, (stepFunc i).1) <$> seq n (length errs) = Err <$> errs.

(** [edge] is among the out-edges the graph keeps for the node [from]. *)
Definition edgeIn (g : graph.Graph StepDefinition) (from : string)
    (edge : graph.Edge StepDefinition) : Prop :=
  ∃ edges, graph.nodeEdges g !! from = Some edges ∧ edge ∈ edges.

(** [n] is the ID of a node of the graph that some edge points to. *)
Definition hasPredecessor (g : graph.Graph StepDefinition) (n : string) : Prop :=
  ∃ from edge, edgeIn g from edge ∧ getID (graph.To edge) = n.

(** The edge from [p] to [s] is in the graph. *)
Definition hasEdge (g : graph.Graph StepDefinition) (p s : StepDefinition) : Prop :=
  edgeIn g (getID p) {| graph.From := p; graph.To := s |}.

(** The first of the names [deps] that is not a step of the job. *)
Fixpoint firstMissing (j : JobDefinition) (deps : list string) : option string :=
  match deps with
  | [] => None
  | d :: rest =>
      if bool_decide (is_Some (steps j !! d)) then firstMissing j rest else Some d
  end.

(** What holds of every job definition under construction: the graph
    has the steps as its nodes, every step is registered under its own
    name, the root is one of the steps, and every other step names a
    dependency and has an edge of the graph pointing to it. *)
Definition wellFormed (j : JobDefinition) : Prop :=
  graph.nodes (stepsDag j) = steps j
  ∧ (∀ n sd, steps j !! n = Some sd → GetName sd = n)
  ∧ steps j !! GetName (rootStep j) = Some (rootStep j)
  ∧ (∀ n sd, steps j !! n = Some sd → n ≠ GetName (rootStep j) →
             hasPredecessor (stepsDag j) n ∧ DependsOn sd ≠ []).

(** The job definitions that construction yields: a new definition, and
    whatever the builders and [Seal] leave, whether they succeed or
    not. *)
Inductive Built : JobDefinition → Prop :=
| Built_new a jobname : Built (NewJobDefinition a jobname)
| Built_Seal j : Built j → Built (Seal j)
| Built_AddStep j a bCtx stepName stepFunc opts :
    Built j → Built (AddStep a bCtx j stepName stepFunc opts).2
| Built_StepAfter j a bCtx stepName parentStep stepFunc opts :
    Built j → Built (StepAfter a bCtx j stepName parentStep stepFunc opts).2
| Built_StepAfterBoth j a bCtx stepName parentStepT parentStepS stepFunc opts :
    Built j →
    Built (StepAfterBoth a bCtx j stepName parentStepT parentStepS stepFunc opts).2
| Built_StepFromJobInput j a bCtx stepName stepFunc opts :
    Built j → Built (StepFromJobInput a bCtx j stepName stepFunc opts).2.

(** Modelled from the spec: [visualize()] on a job definition renders
    the definition graph. *)
Definition Visualize {TE : Type} (digraphTemplate : graph.templateRef → result TE string)
    (j : JobDefinition) (out : result TE string) : Prop :=
  graph.ToDotGraph digraphTemplate (stepsDag j) out.

End Job.
End asyncjob.

(* ================================================================== *)
(** ** asyncjob_test: the retry policy of the tests *)
(* ================================================================== *)

Module asyncjob_test.
Import asyncjob.

Record linearRetryPolicy : Type := {
  sleepInterval : time_Duration;
  maxRetryCount : Z;
  tried : Z
}.

Definition newLinearRetryPolicy (interval : time_Duration) (maxRetries : Z)
    : linearRetryPolicy :=
  {| sleepInterval := interval; maxRetryCount := maxRetries; tried := 0 |}.

(** [func (lrp *linearRetryPolicy) SleepInterval() time.Duration] *)
Definition linearRetryPolicy_SleepInterval (lrp : linearRetryPolicy)
    : time_Duration * linearRetryPolicy :=
  (sleepInterval lrp,
   {| sleepInterval := sleepInterval lrp;
      maxRetryCount := maxRetryCount lrp;
      tried := wrap_int (tried lrp + 1) |}).

(** [func (lrp *linearRetryPolicy) ShouldRetry(error) bool] *)
Definition linearRetryPolicy_ShouldRetry (lrp : linearRetryPolicy) (_ : error)
    : bool * linearRetryPolicy :=
  (if bool_decide (tried lrp < maxRetryCount lrp)%Z then true else false, lrp).

Global Instance linearRetryPolicy_RetryPolicy : RetryPolicy linearRetryPolicy := {|
  ShouldRetry := linearRetryPolicy_ShouldRetry;
  SleepInterval := linearRetryPolicy_SleepInterval
|}.

(** The policy object after [k] more calls of [SleepInterval]. *)
Definition afterSleeps (k : nat) (lrp : linearRetryPolicy) : linearRetryPolicy :=
  Nat.iter k (λ lrp, (linearRetryPolicy_SleepInterval lrp).2) lrp.

(** The [func() error] values the tests put into [ErrorInjection], by
    the variables they capture: the closure [getErrorFunc(err, count)]
    returns, the closure [getPanicFunc(count)] returns, and the function
    literal [func() error { return fmt.Errorf(msg) }]. *)
Inductive errFunc : Type :=
| getErrorFunc (err : option error) (count : Z)
| getPanicFunc (count : Z)
| errorfFunc (msg : string).

(** A call of such a function: what the call comes to, and the closure
    as the call leaves it ([count--] acts on the captured variable). *)
Definition errFunc_call (f : errFunc) : callResult (option error) * errFunc :=
  match f with
  | getErrorFunc err count =>
      if bool_decide (0 < count)%Z
      then (Returns err, getErrorFunc err (wrap_int (count - 1)))
      else (Returns None, f)
  | getPanicFunc count =>
      if bool_decide (0 < count)%Z
      then (Panics "panic", getPanicFunc (wrap_int (count - 1)))
      else (Returns None, f)
  | errorfFunc msg => (Returns (Some (errorString msg)), f)
  end.

(** The closure after [k] more calls. *)
Definition afterCalls (k : nat) (f : errFunc) : errFunc :=
  Nat.iter k (λ f, (errFunc_call f).2) f.

End asyncjob_test.

(* ================================================================== *)
(** ** asyncjob_test: the library the tests' job is made of *)
(* ================================================================== *)

Module SqlSummaryJobLib.
Import asyncjob_test.

(** [SqlSummaryJobParameters].  A Go map of functions holds references:
    [ErrorInjection] maps a key to the address of a closure, [None]
    being the nil map. *)
Record SqlSummaryJobParameters : Type := {
  ServerName : string;
  Table1 : string;
  Query1 : string;
  Table2 : string;
  Query2 : string;
  ErrorInjection : option (gmap string nat)
}.

(** [SqlSummaryJobLib]; the receiver and its [Params] are not nil. *)
Record SqlSummaryJobLib : Type := { Params' : SqlSummaryJobParameters }.

Record SqlConnection : Type := { SqlConnection_ServerName : string }.

Record SqlTableClient : Type := {
  SqlTableClient_ServerName : string;
  SqlTableClient_TableName : string
}.

(** [Data map[string]interface{}]: the values the library stores are
    strings. *)
Record SqlQueryResult : Type := { Data : gmap string string }.

Record SummarizedResult : Type := {
  Data1 : gmap string string;
  Data2 : gmap string string
}.

(** What the methods act on besides their arguments: the closures the
    injection map refers to, by address, and the lines written to the
    standard output. *)
Record Env : Type := {
  closures : nat → errFunc;
  stdout : list string
}.

(** A method call: it returns or panics, and leaves an environment
    either way. *)
Definition T (A : Type) : Type := Env → callResult A * Env.

Global Instance T_ret : MRet T := λ A a env, (Returns a, env).
Global Instance T_bind : MBind T :=
  λ A B f m env, match m env with
                 | (Returns a, env') => f a env'
                 | (Panics v, env') => (Panics v, env')
                 end.

(** [fmt.Println] of one line (kept without its newline). *)
Definition Println (line : string) : T () :=
  λ env, (Returns (), {| closures := closures env; stdout := stdout env ++ [line] |}).

(** [*p]: dereferencing nil panics. *)
Definition deref {A} (p : option A) : T A :=
  λ env, match p with
         | Some a => (Returns a, env)
         | None => (Panics "runtime error: invalid memory address or nil pointer dereference", env)
         end.

(** The closures, with [f] at address [a]. *)
Definition withClosure (a : nat) (f : errFunc) (closures : nat → errFunc)
    : nat → errFunc :=
  λ b, if bool_decide (b = a) then f else closures b.

(** [errFunc()] for the closure at address [a]. *)
Definition callFunc (a : nat) : T (option error) :=
  λ env, let '(r, f) := errFunc_call (closures env a) in
         (r, {| closures := withClosure a f (closures env); stdout := stdout env |}).

(** The block the methods share, up to the key:
    [if sql.Params.ErrorInjection != nil {
       if errFunc, ok := sql.Params.ErrorInjection[key]; ok {
         if err := errFunc(); err != nil { return nil, err } } }].
    The key is computed only when the map is not nil.  The result is
    the error to return, if any. *)
Definition injected (sql : SqlSummaryJobLib) (key : T string) : T (option error) :=
  match ErrorInjection (Params' sql) with
  | Some injection =>
      k ← key;
      match injection !! k with
      | Some errFunc => callFunc errFunc
      | None => mret None
      end
  | None => mret None
  end.

(** The closure the injection map has under [key], if any. *)
Definition injectedAt (sql : SqlSummaryJobLib) (key : string) : option nat :=
  injection ← ErrorInjection (Params' sql); injection !! key.

(** [func (sql *SqlSummaryJobLib) GetConnection(ctx, serverName *string)] *)
Definition GetConnection (sql : SqlSummaryJobLib) (ctx : Context)
    (serverName : option string) : T (res SqlConnection) :=
  Println "GetConnection";;
  err ← injected sql (name ← deref serverName; mret ("GetConnection." +:+ name));
  match err with
  | Some err => mret (Err err)
  | None =>
      name ← deref serverName;
      mret (Ok {| SqlConnection_ServerName := name |})
  end.

(** [func (sql *SqlSummaryJobLib) GetTableClient(ctx, conn *SqlConnection,
    tableName *string)] *)
Definition GetTableClient (sql : SqlSummaryJobLib) (ctx : Context)
    (conn : option SqlConnection) (tableName : option string)
    : T (res SqlTableClient) :=
  name ← deref tableName;
  Println ("GetTableClient with tableName: " +:+ name);;
  err ← injected sql (name ← deref tableName; mret ("GetTableClient." +:+ name));
  match err with
  | Some err => mret (Err err)
  | None =>
      conn ← deref conn;
      name ← deref tableName;
      mret (Ok {| SqlTableClient_ServerName := SqlConnection_ServerName conn;
                  SqlTableClient_TableName := name |})
  end.

(** [func (sql *SqlSummaryJobLib) CheckAuth(ctx) error] *)
Definition CheckAuth (sql : SqlSummaryJobLib) (ctx : Context) : T (option error) :=
  err ← injected sql (mret "CheckAuth");
  match err with
  | Some err => mret (Some err)
  | None => mret None
  end.

(** [func (sql *SqlSummaryJobLib) ExecuteQuery(ctx, tableClient *SqlTableClient,
    queryString *string)].  [Println] of two operands puts a space
    between them. *)
Definition ExecuteQuery (sql : SqlSummaryJobLib) (ctx : Context)
    (tableClient : option SqlTableClient) (queryString : option string)
    : T (res SqlQueryResult) :=
  query ← deref queryString;
  Println ("ExecuteQuery: " +:+ " " +:+ query);;
  err ← injected sql (query ← deref queryString; mret ("ExecuteQuery." +:+ query));
  match err with
  | Some err => mret (Err err)
  | None =>
      tableClient ← deref tableClient;
      query ← deref queryString;
      mret (Ok {| Data := {[ "serverName" := SqlTableClient_ServerName tableClient;
                             "tableName" := SqlTableClient_TableName tableClient;
                             "queryName" := query ]} |})
  end.

(** [func (sql *SqlSummaryJobLib) SummarizeQueryResult(ctx, result1, result2
    *SqlQueryResult)] *)
Definition SummarizeQueryResult (sql : SqlSummaryJobLib) (ctx : Context)
    (result1 result2 : option SqlQueryResult) : T (res SummarizedResult) :=
  Println "SummarizeQueryResult";;
  err ← injected sql (mret "SummarizeQueryResult");
  match err with
  | Some err => mret (Err err)
  | None =>
      result1 ← deref result1;
      result2 ← deref result2;
      mret (Ok {| Data1 := Data result1; Data2 := Data result2 |})
  end.

(** [func (sql *SqlSummaryJobLib) EmailNotification(ctx) error] *)
Definition EmailNotification (sql : SqlSummaryJobLib) (ctx : Context) : T (option error) :=
  Println "EmailNotification";;
  mret None.

(** The three steps from a server name to a query result, each handed
    the result of the one before, as [BuildJob] wires [GetConnection],
    [getTableClient1] and [QueryTable1]; a step that fails ends the
    chain. *)
Definition queryTable (sql : SqlSummaryJobLib) (ctx : Context)
    (serverName tableName queryString : string) : T (res SqlQueryResult) :=
  conn ← GetConnection sql ctx (Some serverName);
  match conn with
  | Err err => mret (Err err)
  | Ok conn =>
      tableClient ← GetTableClient sql ctx (Some conn) (Some tableName);
      match tableClient with
      | Err err => mret (Err err)
      | Ok tableClient => ExecuteQuery sql ctx (Some tableClient) (Some queryString)
      end
  end.

(** The environment after a call of the closure at address [a], and
    after a line was printed. *)
Definition called (a : nat) (env : Env) : Env :=
  {| closures := withClosure a (errFunc_call (closures env a)).2 (closures env);
     stdout := stdout env |}.

Definition printed (line : string) (env : Env) : Env :=
  {| closures := closures env; stdout := stdout env ++ [line] |}.

(** What [ExecuteQuery] returns when it succeeds. *)
Definition queryData (tableClient : SqlTableClient) (query : string) : SqlQueryResult :=
  {| Data := {[ "serverName" := SqlTableClient_ServerName tableClient;
                "tableName" := SqlTableClient_TableName tableClient;
                "queryName" := query ]} |}.

(** The environment after [k] more calls of a method. *)
Definition afterRuns {A} (k : nat) (m : T A) (env : Env) : Env :=
  Nat.iter k (λ env, (m env).2) env.

(** A library after the tests': the query of the second table fails
    once ([getErrorFunc(err, 1)], as in [TestSimpleJobError]) and the
    connection to [server2] always fails. *)
Definition schemaError : error := errorString "table2 schema error".

Definition testLib : SqlSummaryJobLib :=
  {| Params' := {| ServerName := "server1";
                   Table1 := "table1"; Query1 := "query1";
                   Table2 := "table2"; Query2 := "query2";
                   ErrorInjection := Some {[ "ExecuteQuery.query2" := 1;
                                             "GetConnection.server2" := 2 ]} |} |}.

Definition testEnv : Env :=
  {| closures := λ a, if bool_decide (a = 2) then errorfFunc "InternalServerError"
                      else getErrorFunc (Some schemaError) 1;
     stdout := [] |}.

End SqlSummaryJobLib.

(* ================================================================== *)
(** ** A small job, after the tests' SQL summary job *)
(* ================================================================== *)

Module sqlSummary.
Import asyncjob asyncjob_test.

Abbreviation JobDef := (@JobDefinition nat linearRetryPolicy).
Abbreviation StepDef := (@StepDefinition nat linearRetryPolicy).

(** [CheckAuth] and [EmailNotification]: steps without input that
    succeed. *)
Definition CheckAuth : @AsyncFunc nat := λ _ _, (Ok 0, 1%N).
Definition emailNotificationStepFunc : @AsyncFunc nat := λ _ _, (Ok 0, 1%N).

(** [GetConnection]: a step after one parent. *)
Definition GetConnection : @ContinueFunc nat := λ _ serverName _, (Ok serverName, 2%N).

(** [ExecuteQuery] with the error injected by [TestJobStepRetry]: every
    call fails. *)
Definition queryError : error := errorString "query exeeded memory limit".
Definition ExecuteQuery_failing : @AfterBothFunc nat := λ _ _ _ _, (Err queryError, 5%N).

(** A step function that fails twice and then succeeds, as the tests'
    [getErrorFunc(err, 2)] makes them. *)
Definition transientError : error := errorString "auth transient error".
Definition failsTwice : nat → @Outcome nat :=
  λ n, if bool_decide (n < 2) then (Err transientError, 1%N) else (Ok 7, 1%N).

Definition newJob : JobDef := NewJobDefinition 1 "sqlSummaryJob".

Definition withCheckAuth : res StepDef * JobDef :=
  AddStep 2 background newJob "CheckAuth" CheckAuth [].

(** The definition of a step without a retry policy, and of one with
    the linear policy of [TestJobStepRetry]. *)
Definition checkAuthStep : StepDef := newStepDefinition 2 "CheckAuth" stepTypeTask [].
Definition queryTable1Step : StepDef :=
  newStepDefinition 5 "QueryTable1" stepTypeTask
    [WithRetry (newLinearRetryPolicy 3000000%Z 3%Z)].

(** A job instance after its two steps have terminated: [CheckAuth]
    completed, [QueryTable1] failed. *)
Definition checkAuthDone : @StepInstance nat linearRetryPolicy :=
  {| stepDefinition := checkAuthStep;
     state := StepStateCompleted;
     executionData := {| StartTime := 100%Z; Duration := 1%Z; Retried := None |};
     task := asynctask.Completed 0 |}.

Definition queryTable1Failed : @StepInstance nat linearRetryPolicy :=
  {| stepDefinition := queryTable1Step;
     state := StepStateFailed;
     executionData :=
       {| StartTime := 101%Z; Duration := 20%Z;
          Retried := Some {| Count := 3; LastError := Some queryError |} |};
     task := asynctask.Failed (newStepError "QueryTable1" queryError) |}.

Definition finishedInstance : @JobInstance nat linearRetryPolicy :=
  {| input := 0;
     stepInstances := <["CheckAuth" := checkAuthDone]> {["QueryTable1" := queryTable1Failed]};
     insertionOrder := ["CheckAuth"; "QueryTable1"] |}.

(** A step definition that was never added to the job. *)
Definition stranger : StepDef := newStepDefinition 9 "stranger" stepTypeTask [].

(** The calls that make the graph of the job with its one step; the
    last one names a node the graph does not have. *)
Definition graphCalls : list (graph.Op StepDef) :=
  [graph.OpAddNode (rootStep newJob);
   graph.OpAddNode checkAuthStep;
   graph.OpConnect "sqlSummaryJob" "CheckAuth";
   graph.OpConnect "sqlSummaryJob" "stranger"].

(** A step that is to run after [CheckAuth] and after a step that has
    no instance. *)
Definition summarizeStep : StepDef :=
  newStepDefinition 7 "summarize" stepTypeTask
    [ExecuteAfter checkAuthStep; ExecuteAfter stranger].

End sqlSummary.

(* ================================================================== *)
(** * Properties *)
(* ================================================================== *)

(** ** The graph container *)

Section GraphFacts.
Context {NT : Type} `{graph.NodeConstrain NT}.
Import graph.

Lemma AddNode_fresh (g : Graph NT) (n : NT) :
  nodes g !! ID (DotSpec n) = None →
  AddNode g n = (None, {| nodes := <[ID (DotSpec n) := n]> (nodes g);
                          nodeEdges := nodeEdges g;
                          edgeSpecFunc := edgeSpecFunc g |}).
Proof. intros Hn. unfold AddNode. by rewrite Hn. Qed.

Lemma AddNode_present (g : Graph NT) (n : NT) :
  is_Some (nodes g !! ID (DotSpec n)) →
  AddNode g n = (Some ErrDuplicateNode, g).
Proof. intros [n' Hn]. unfold AddNode. by rewrite Hn. Qed.

Lemma Connect_present (g : Graph NT) (from to : string) (nodeFrom nodeTo : NT) :
  nodes g !! from = Some nodeFrom →
  nodes g !! to = Some nodeTo →
  Connect g from to =
    (None, {| nodes := nodes g;
              nodeEdges := <[from := default [] (nodeEdges g !! from)
                                       ++ [ {| From := nodeFrom; To := nodeTo |} ]]>
                             (nodeEdges g);
              edgeSpecFunc := edgeSpecFunc g |}).
Proof. intros Hf Ht. unfold Connect. by rewrite Hf, Ht. Qed.

Lemma Connect_missing (g : Graph NT) (from to : string) :
  nodes g !! from = None ∨ nodes g !! to = None →
  Connect g from to = (Some ErrConnectNotExistingNode, g).
Proof.
  unfold Connect. intros [Hf | Ht].
  - by rewrite Hf.
  - rewrite Ht. by destruct (nodes g !! from).
Qed.

(** C8.  [AddNode] reports the duplicate error exactly when a node is
    already registered under the new node's ID, and then leaves the
    graph as it is; otherwise it registers the node under its ID and
    returns nil.  [Connect] reports the missing-endpoint error exactly
    when one of the two IDs is not a node of the graph, and then leaves
    the graph as it is; otherwise it appends the edge from [from] to [to]
    to the out-edges of [from] and returns nil. *)
Theorem AddNode_Connect_errors (g : Graph NT) (n : NT) (from to : string) :
  ((AddNode g n).1 = Some ErrDuplicateNode ↔ is_Some (nodes g !! ID (DotSpec n)))
  ∧ ((AddNode g n).1 = Some ErrDuplicateNode ∧ (AddNode g n).2 = g
     ∨ (AddNode g n).1 = None
       ∧ nodes (AddNode g n).2 = <[ID (DotSpec n) := n]> (nodes g)
       ∧ nodeEdges (AddNode g n).2 = nodeEdges g)
  ∧ ((Connect g from to).1 = Some ErrConnectNotExistingNode
     ↔ nodes g !! from = None ∨ nodes g !! to = None)
  ∧ ((Connect g from to).1 = Some ErrConnectNotExistingNode ∧ (Connect g from to).2 = g
     ∨ (Connect g from to).1 = None
       ∧ nodes (Connect g from to).2 = nodes g
       ∧ ∃ nodeFrom nodeTo,
           nodes g !! from = Some nodeFrom ∧ nodes g !! to = Some nodeTo ∧
           nodeEdges (Connect g from to).2 =
             <[from := default [] (nodeEdges g !! from)
                         ++ [ {| From := nodeFrom; To := nodeTo |} ]]> (nodeEdges g)).
Proof.
  repeat split.
  - unfold AddNode. destruct (nodes g !! ID (DotSpec n)) eqn:E; simpl; [eauto | done].
  - intros Hs. by rewrite AddNode_present.
  - destruct (nodes g !! ID (DotSpec n)) eqn:E.
    + left. by rewrite AddNode_present.
    + right. by rewrite AddNode_fresh.
  - unfold Connect.
    destruct (nodes g !! from) eqn:Ef; [| by left].
    destruct (nodes g !! to) eqn:Et; [done | by right].
  - intros Hm. by rewrite Connect_missing.
  - destruct (nodes g !! from) as [nf|] eqn:Ef;
      [destruct (nodes g !! to) as [nt|] eqn:Et |].
    + right. rewrite (Connect_present g from to nf nt) by done. simpl. eauto 10.
    + left. rewrite Connect_missing by auto. done.
    + left. rewrite Connect_missing by auto. done.
Qed.

(** Whatever the traversals, the template gets the same node specs and
    the same edge specs up to their order. *)
Lemma collectNodes_Permutation (v1 v2 : list (string * NT)) :
  v1 ≡ₚ v2 → collectNodes v1 ≡ₚ collectNodes v2.
Proof. intros Hp. unfold collectNodes. by rewrite Hp. Qed.

Lemma collectEdges_Permutation (g : Graph NT) (v1 v2 : list (string * list (Edge NT))) :
  v1 ≡ₚ v2 → collectEdges g v1 ≡ₚ collectEdges g v2.
Proof. intros Hp. unfold collectEdges. by rewrite Hp. Qed.

(** C4, amended.  Two renderings of the same graph hand the template the
    same node specs and the same edge specs up to order, so their
    outputs are equal for every template whose output does not depend
    on the order of the nodes and of the edges. *)
Theorem ToDotGraph_deterministic_up_to_order {TE : Type}
    (template : templateRef → result TE string)
    (g : Graph NT) (out1 out2 : result TE string) :
  (∀ r1 r2, Nodes r1 ≡ₚ Nodes r2 → Edges r1 ≡ₚ Edges r2 → template r1 = template r2) →
  ToDotGraph template g out1 →
  ToDotGraph template g out2 →
  out1 = out2.
Proof.
  intros Hins (nv1 & ev1 & Hn1 & He1 & ->) (nv2 & ev2 & Hn2 & He2 & ->).
  unfold ToDotGraph_along, MapRange in *.
  rewrite (Hins {| Nodes := collectNodes nv1; Edges := collectEdges g ev1 |}
                {| Nodes := collectNodes nv2; Edges := collectEdges g ev2 |}); [done | |]; simpl.
  - apply collectNodes_Permutation. by rewrite Hn1, Hn2.
  - apply collectEdges_Permutation. by rewrite He1, He2.
Qed.

End GraphFacts.

(** ** Rendering the definition graph twice *)

Section RenderTwice.
Import graph asyncjob sqlSummary.

(** The definition graph of the job with the root and [CheckAuth]. *)
Let g : Graph StepDef := stepsDag withCheckAuth.2.

(** C4, as stated, fails: the job definition with the root step and
    [CheckAuth] has two renderings that differ, one for each order in
    which the range over the node map may visit the two nodes. *)
Lemma ToDotGraph_two_outputs :
  ¬ (∀ out1 out2 : result () string,
       ToDotGraph digraphTemplate (stepsDag withCheckAuth.2) out1 →
       ToDotGraph digraphTemplate (stepsDag withCheckAuth.2) out2 →
       out1 = out2).
Proof.
  intros Hdet.
  pose (nv := map_to_list (nodes g)).
  pose (ev := map_to_list (nodeEdges g)).
  assert (H1 : ToDotGraph digraphTemplate g (ToDotGraph_along digraphTemplate g nv ev)).
  { exists nv, ev. repeat split; unfold MapRange; reflexivity. }
  assert (H2 : ToDotGraph digraphTemplate g
                 (ToDotGraph_along digraphTemplate g (reverse nv) ev)).
  { exists (reverse nv), ev. repeat split; unfold MapRange;
      [apply reverse_Permutation | reflexivity]. }
  specialize (Hdet _ _ H1 H2).
  vm_compute in Hdet. discriminate Hdet.
Qed.

(** A template that only counts nodes and edges does not depend on their
    order: the renderings of the same graph agree. *)
Lemma ToDotGraph_deterministic_up_to_order_witness :
  let template : templateRef → result () string :=
    λ r, Ok (if bool_decide (length (Nodes r) + length (Edges r) = 3)
             then "three" else "other") in
  ToDotGraph_along template g (map_to_list (nodes g)) (map_to_list (nodeEdges g))
  = ToDotGraph_along template g (reverse (map_to_list (nodes g)))
                                (map_to_list (nodeEdges g)).
Proof.
  intros template.
  apply (ToDotGraph_deterministic_up_to_order template g).
  - intros r1 r2 Hn He. unfold template.
    by rewrite (Permutation_length Hn), (Permutation_length He).
  - eexists _, _. repeat split; unfold MapRange; reflexivity.
  - eexists _, _. repeat split; unfold MapRange;
      [apply reverse_Permutation | reflexivity].
Defined.

End RenderTwice.

(** ** The instrumented step body *)

Section BodyFacts.
Context {Val : Type} {P : Type} `{asyncjob.RetryPolicy P}.
Import asyncjob.

Implicit Types (w : @World Val P) (body : nat → @Outcome Val)
               (tasks : list asynctask.Waitable).

Lemma bind_Some {A B} (m : M (Val:=Val) (P:=P) A) (k : A → M B) w a w' :
  m w = Some (a, w') → (m ≫= k) w = k a w'.
Proof. intros Hm. unfold mbind, M_bind. by rewrite Hm. Qed.

Lemma bind_None {A B} (m : M (Val:=Val) (P:=P) A) (k : A → M B) w :
  m w = None → (m ≫= k) w = None.
Proof. intros Hm. unfold mbind, M_bind. by rewrite Hm. Qed.

Lemma bind_inv {A B} (m : M (Val:=Val) (P:=P) A) (k : A → M B) w b w2 :
  (m ≫= k) w = Some (b, w2) →
  ∃ a w1, m w = Some (a, w1) ∧ k a w1 = Some (b, w2).
Proof.
  unfold mbind, M_bind. destruct (m w) as [[a w1]|]; [eauto | done].
Qed.

Lemma firstFailure_elem tasks :
  (∃ t, t ∈ tasks ∧ is_Some (asynctask.failure t)) →
  is_Some (asynctask.firstFailure tasks).
Proof.
  intros (t & Hin & Hf). induction Hin as [t l | t t' l Hin IH]; simpl.
  - destruct Hf as [e ->]. eauto.
  - destruct (asynctask.failure t'); eauto.
Qed.

Lemma WaitAll_failed ctx tasks :
  (∃ t, t ∈ tasks ∧ is_Some (asynctask.failure t)) →
  ∃ e, asynctask.WaitAll ctx tasks = Some (Some e).
Proof.
  intros Hf. destruct (firstFailure_elem tasks Hf) as [e He].
  exists e. unfold asynctask.WaitAll. by rewrite He.
Qed.

Lemma firstFailure_completed tasks :
  forallb asynctask.completed tasks = true → asynctask.firstFailure tasks = None.
Proof.
  induction tasks as [|t l IH]; simpl; [done |].
  intros [Ht Hl]%andb_prop. destruct t; simpl in *; try done. auto.
Qed.

Lemma WaitAll_completed ctx tasks :
  forallb asynctask.completed tasks = true →
  asynctask.WaitAll ctx tasks = Some None.
Proof.
  intros Hc. unfold asynctask.WaitAll.
  by rewrite (firstFailure_completed _ Hc), Hc.
Qed.

(** When the wait on the preceding tasks fails, the body is over at once:
    the world is as it was. *)
Lemma instrumentedFunc_wait_failed fuel stepName tasks ctx body w e :
  asynctask.WaitAll ctx tasks = Some (Some e) →
  instrumentedFunc fuel stepName tasks ctx body w
  = Some (Err (newJobError ErrPrecedentStepFailure ""), w).
Proof.
  intros Hw. unfold instrumentedFunc.
  rewrite (bind_Some _ _ w (Some e) w); [done |].
  unfold waitAll. by rewrite Hw.
Qed.


(** *** What the driver and the user function leave untouched *)

Lemma driverOnly_refl w : driverOnly w w [].
Proof. unfold driverOnly. by rewrite app_nil_r. Qed.

Lemma driverOnly_trans w w1 w2 m1 m2 :
  driverOnly w w1 m1 → driverOnly w1 w2 m2 → driverOnly w w2 (m1 ++ m2).
Proof.
  intros (Ht1 & Hd1 & Hs1 & Hb1 & Hu1) (Ht2 & Hd2 & Hs2 & Hb2 & Hu2).
  unfold driverOnly. rewrite Ht2, Ht1, forallb_app, Hd1, Hd2.
  rewrite <- (assoc_L (++)). repeat split; congruence.
Qed.

Lemma invoke_spec body w :
  ∃ w1, invoke body w = Some ((body (calls w)).1, w1)
        ∧ driverOnly w w1 [Invoke (calls w)]
        ∧ calls w1 = S (calls w)
        ∧ policy w1 = policy w
        ∧ Retried (executionData (instance w1)) = Retried (executionData (instance w))
        ∧ clock w1 = (clock w + Z.of_N (body (calls w)).2)%Z.
Proof.
  unfold invoke. destruct (body (calls w)) as [r d]. eexists. split; [done |].
  unfold driverOnly. simpl. done.
Qed.

Lemma update_report_spec (f : RetryReport → RetryReport) w rep :
  Retried (executionData (instance w)) = Some rep →
  ∃ w1, update_report f w = Some ((), w1)
        ∧ driverOnly w w1 [SetRetried (f rep)]
        ∧ calls w1 = calls w
        ∧ policy w1 = policy w
        ∧ Retried (executionData (instance w1)) = Some (f rep)
        ∧ clock w1 = clock w.
Proof.
  intros Hr. unfold update_report.
  rewrite (bind_Some _ _ w (instance w) w) by done.
  rewrite Hr. eexists. split; [done |]. unfold driverOnly. simpl. done.
Qed.

Lemma update_report_inv (f : RetryReport → RetryReport) w u w1 :
  update_report f w = Some (u, w1) →
  ∃ rep, Retried (executionData (instance w)) = Some rep.
Proof.
  unfold update_report. rewrite (bind_Some _ _ w (instance w) w) by done.
  destruct (Retried (executionData (instance w))); [eauto | done].
Qed.

Lemma call_policy_spec {A} (method : P → A * P) w p :
  policy w = Some p →
  ∃ w1, call_policy method w = Some ((method p).1, w1)
        ∧ driverOnly w w1 []
        ∧ calls w1 = calls w
        ∧ policy w1 = Some (method p).2
        ∧ Retried (executionData (instance w1)) = Retried (executionData (instance w))
        ∧ clock w1 = clock w.
Proof.
  intros Hp. unfold call_policy. rewrite Hp. destruct (method p) as [a p'].
  eexists. split; [done |]. unfold driverOnly. simpl. by rewrite app_nil_r.
Qed.

Lemma call_policy_inv {A} (method : P → A * P) w a w1 :
  call_policy method w = Some (a, w1) → ∃ p, policy w = Some p.
Proof. unfold call_policy. destruct (policy w); [eauto | done]. Qed.

Lemma sleep_spec ctx d w :
  ∃ w1, sleep ctx d w = Some ((), w1)
        ∧ driverOnly w w1 [Sleep d]
        ∧ calls w1 = calls w
        ∧ policy w1 = policy w
        ∧ Retried (executionData (instance w1)) = Retried (executionData (instance w)).
Proof. unfold sleep. eexists. split; [done |]. unfold driverOnly. simpl. done. Qed.

(** One round of the driver on a failing attempt that the policy lets it
    retry. *)
Lemma retryer_Run_round fuel ctx body w p rep e :
  policy w = Some p →
  Retried (executionData (instance w)) = Some rep →
  cancelAt ctx = None →
  (body (calls w)).1 = Err e →
  (ShouldRetry p e).1 = true →
  ∃ w1, retryer_Run (S fuel) ctx (invoke body) w = retryer_Run fuel ctx (invoke body) w1
        ∧ (∃ mid, driverOnly w w1 (Invoke (calls w) :: mid))
        ∧ calls w1 = S (calls w)
        ∧ policy w1 = Some (SleepInterval (ShouldRetry p e).2).2
        ∧ Retried (executionData (instance w1))
          = Some {| Count := S (Count rep); LastError := Some e |}.
Proof.
  intros Hp Hr Hc He Hs. simpl.
  destruct (invoke_spec body w) as (wa & Ea & Da & Ca & Pa & Ra & _).
  rewrite (bind_Some _ _ _ _ _ Ea), He.
  destruct (update_report_spec (λ rep, {| Count := Count rep; LastError := Some e |})
              wa rep) as (wb & Eb & Db & Cb & Pb & Rb & _); [congruence |].
  rewrite (bind_Some _ _ _ _ _ Eb).
  rewrite (bind_Some _ _ wb (clock wb) wb) by done.
  unfold ctx_canceled. rewrite Hc.
  destruct (call_policy_spec (λ p, ShouldRetry p e) wb p)
    as (wc & Ec & Dc & Cc & Pc & Rc & _); [congruence |].
  rewrite (bind_Some _ _ _ _ _ Ec), Hs.
  destruct (call_policy_spec SleepInterval wc (ShouldRetry p e).2)
    as (wd & Ed & Dd & Cd & Pd & Rd & _); [done |].
  rewrite (bind_Some _ _ _ _ _ Ed).
  destruct (sleep_spec ctx (SleepInterval (ShouldRetry p e).2).1 wd)
    as (we & Ee & De & Ce & Pe & Re).
  rewrite (bind_Some _ _ _ _ _ Ee).
  destruct (update_report_spec
              (λ rep, {| Count := S (Count rep); LastError := LastError rep |})
              we {| Count := Count rep; LastError := Some e |})
    as (wf & Ef & Df & Cf & Pf & Rf & _); [congruence |].
  rewrite (bind_Some _ _ _ _ _ Ef).
  exists wf. split; [done |]. split.
  - eexists. 
    pose proof (driverOnly_trans _ _ _ _ _ Da
                 (driverOnly_trans _ _ _ _ _ Db
                   (driverOnly_trans _ _ _ _ _ Dc
                     (driverOnly_trans _ _ _ _ _ Dd
                       (driverOnly_trans _ _ _ _ _ De Df))))) as D.
    simpl in D. exact D.
  - simpl in *. repeat split; congruence.
Qed.

(** The driver on attempts that fail one after the other, as long as the
    policy lets it go on. *)
Lemma retryer_Run_rounds ctx body (errs : list error) :
  ∀ fuel w p rep,
    policy w = Some p →
    Retried (executionData (instance w)) = Some rep →
    cancelAt ctx = None →
    failsWith body (calls w) errs →
    policyAllows p errs = true →
    ∃ w1 rep1,
      retryer_Run (length errs + fuel) ctx (invoke body) w
      = retryer_Run fuel ctx (invoke body) w1
      ∧ (∃ mid, driverOnly w w1 mid)
      ∧ calls w1 = calls w + length errs
      ∧ policy w1 = Some (policyAfter p errs)
      ∧ Retried (executionData (instance w1)) = Some rep1
      ∧ Count rep1 = Count rep + length errs.
Proof.
  induction errs as [|e rest IH]; intros fuel w p rep Hp Hr Hc Hf Ha.
  - exists w, rep. simpl. repeat split; try done; try lia.
    eexists. apply driverOnly_refl.
  - simpl in Ha. destruct (ShouldRetry p e) as [b p1] eqn:Es.
    destruct b; [| done].
    unfold failsWith in Hf. simpl in Hf. injection Hf as Hhead Htail.
    destruct (retryer_Run_round (length rest + fuel) ctx body w p rep e)
      as (wa & Ea & [mida Da] & Ca & Pa & Ra); try done.
    { by rewrite Es. }
    rewrite Es in Pa. simpl in Pa.
    destruct (IH fuel wa _ _ Pa Ra Hc) as (w1 & rep1 & E1 & [mid1 D1] & C1 & P1 & R1 & N1).
    { unfold failsWith. by rewrite Ca. }
    { done. }
    exists w1, rep1. simpl length. repeat split.
    + simpl in Ea. simpl. by rewrite <- E1, <- Ea.
    + eexists. eapply driverOnly_trans; eassumption.
    + lia.
    + simpl. by rewrite Es.
    + done.
    + simpl in N1. lia.
Qed.

(** The attempt that succeeds ends the driver. *)
Lemma retryer_Run_success fuel ctx body w v :
  (body (calls w)).1 = Ok v →
  ∃ w1, retryer_Run (S fuel) ctx (invoke body) w = Some (Ok v, w1)
        ∧ driverOnly w w1 [Invoke (calls w)]
        ∧ calls w1 = S (calls w)
        ∧ Retried (executionData (instance w1)) = Retried (executionData (instance w)).
Proof.
  intros Hv. simpl.
  destruct (invoke_spec body w) as (wa & Ea & Da & Ca & Pa & Ra & _).
  rewrite (bind_Some _ _ _ _ _ Ea), Hv. by exists wa.
Qed.

(** The failing attempt that the policy does not let the driver retry
    ends it too, with the error of that attempt. *)
Lemma retryer_Run_refused fuel ctx body w p rep e :
  policy w = Some p →
  Retried (executionData (instance w)) = Some rep →
  cancelAt ctx = None →
  (body (calls w)).1 = Err e →
  (ShouldRetry p e).1 = false →
  ∃ w1 mid, retryer_Run (S fuel) ctx (invoke body) w = Some (Err e, w1)
        ∧ driverOnly w w1 mid
        ∧ calls w1 = S (calls w)
        ∧ Retried (executionData (instance w1))
          = Some {| Count := Count rep; LastError := Some e |}.
Proof.
  intros Hp Hr Hc He Hs. simpl.
  destruct (invoke_spec body w) as (wa & Ea & Da & Ca & Pa & Ra & _).
  rewrite (bind_Some _ _ _ _ _ Ea), He.
  destruct (update_report_spec (λ rep, {| Count := Count rep; LastError := Some e |})
              wa rep) as (wb & Eb & Db & Cb & Pb & Rb & _); [congruence |].
  rewrite (bind_Some _ _ _ _ _ Eb).
  rewrite (bind_Some _ _ wb (clock wb) wb) by done.
  unfold ctx_canceled. rewrite Hc.
  destruct (call_policy_spec (λ p, ShouldRetry p e) wb p)
    as (wc & Ec & Dc & Cc & Pc & Rc & _); [congruence |].
  rewrite (bind_Some _ _ _ _ _ Ec), Hs.
  exists wc. eexists. split; [done |]. split.
  - exact (driverOnly_trans _ _ _ _ _ Da (driverOnly_trans _ _ _ _ _ Db Dc)).
  - simpl in *. split; congruence.
Qed.

(** Whenever the driver returns, only it and the user function have
    acted, and the user function was called. *)
Lemma retryer_Run_driverOnly ctx body fuel :
  ∀ w r w1,
    retryer_Run fuel ctx (invoke body) w = Some (r, w1) →
    ∃ mid, driverOnly w w1 (Invoke (calls w) :: mid).
Proof.
  induction fuel as [|fuel IH]; intros w r w1 Hrun; [done |].
  simpl in Hrun.
  destruct (invoke_spec body w) as (wa & Ea & Da & Ca & Pa & Ra & _).
  rewrite (bind_Some _ _ _ _ _ Ea) in Hrun.
  destruct (body (calls w)).1 as [v|e].
  { injection Hrun as <- <-. by exists []. }
  apply bind_inv in Hrun as ([] & wb & Eb & Hrun).
  destruct (update_report_inv _ _ _ _ Eb) as [rep Hrep].
  destruct (update_report_spec (λ rep, {| Count := Count rep; LastError := Some e |})
              wa rep Hrep) as (wb' & Eb' & Db & _).
  assert (wb' = wb) as -> by congruence.
  rewrite (bind_Some _ _ wb (clock wb) wb) in Hrun by done.
  destruct (ctx_canceled ctx (clock wb)).
  { injection Hrun as <- <-. eexists.
    exact (driverOnly_trans _ _ _ _ _ Da Db). }
  apply bind_inv in Hrun as (retry & wc & Ec & Hrun).
  destruct (call_policy_inv _ _ _ _ Ec) as [p Hp].
  destruct (call_policy_spec (λ p, ShouldRetry p e) wb p Hp) as (wc' & Ec' & Dc & _).
  assert (wc' = wc) as -> by congruence.
  destruct retry.
  2:{ injection Hrun as <- <-. eexists.
      exact (driverOnly_trans _ _ _ _ _ Da (driverOnly_trans _ _ _ _ _ Db Dc)). }
  apply bind_inv in Hrun as (d & wd & Ed & Hrun).
  destruct (call_policy_inv _ _ _ _ Ed) as [p' Hp'].
  destruct (call_policy_spec SleepInterval wc p' Hp') as (wd' & Ed' & Dd & _).
  assert (wd' = wd) as -> by congruence.
  destruct (sleep_spec ctx d wd) as (we & Ee & De & _).
  rewrite (bind_Some _ _ _ _ _ Ee) in Hrun.
  apply bind_inv in Hrun as ([] & wf & Ef & Hrun).
  destruct (update_report_inv _ _ _ _ Ef) as [rep' Hrep'].
  destruct (update_report_spec
              (λ rep, {| Count := S (Count rep); LastError := LastError rep |})
              we rep' Hrep') as (wf' & Ef' & Df & _).
  assert (wf' = wf) as -> by congruence.
  destruct (IH _ _ _ Hrun) as [mid Dg].
  eexists.
  pose proof (driverOnly_trans _ _ _ _ _ Da
               (driverOnly_trans _ _ _ _ _ Db
                 (driverOnly_trans _ _ _ _ _ Dc
                   (driverOnly_trans _ _ _ _ _ Dd
                     (driverOnly_trans _ _ _ _ _ De
                       (driverOnly_trans _ _ _ _ _ Df Dg)))))) as D.
  simpl in D. exact D.
Qed.

Lemma set_Retried_spec (r : RetryReport) w :
  ∃ w1, set_Retried r w = Some ((), w1)
        ∧ driverOnly w w1 [SetRetried r]
        ∧ calls w1 = calls w
        ∧ policy w1 = policy w
        ∧ Retried (executionData (instance w1)) = Some r
        ∧ clock w1 = clock w.
Proof.
  unfold set_Retried, write. eexists. split; [done |].
  unfold driverOnly. simpl. done.
Qed.

(** The middle of the body: whenever it returns, only the driver and the
    user function have acted, and the user function was called. *)
Lemma runStepFunc_driverOnly fuel ctx body w r w1 :
  runStepFunc fuel ctx body w = Some (r, w1) →
  ∃ mid, driverOnly w w1 mid ∧ existsb is_Invoke mid = true.
Proof.
  unfold runStepFunc. rewrite (bind_Some _ _ w (policy w) w) by done.
  destruct (policy w) as [p|].
  - destruct (set_Retried_spec {| Count := 0; LastError := None |} w)
      as (wa & Ea & Da & Ca & _).
    rewrite (bind_Some _ _ _ _ _ Ea). intros Hrun.
    destruct (retryer_Run_driverOnly _ _ _ _ _ _ Hrun) as [mid D].
    eexists. split; [exact (driverOnly_trans _ _ _ _ _ Da D) |]. done.
  - intros Hrun. destruct (invoke_spec body w) as (wa & Ea & Da & _).
    assert (w1 = wa) as -> by congruence. by exists [Invoke (calls w)].
Qed.

(** The end of the body, once the step function has returned. *)
Lemma instrumentedFunc_completed fuel stepName tasks ctx body w r w1 :
  forallb asynctask.completed tasks = true →
  (set_StartTime (clock w);; set_state StepStateRunning;;
   runStepFunc fuel ctx body) w = Some (r, w1) →
  let d := time_Sub (clock w1) (StartTime (executionData (instance w1))) in
  let final := match r with Ok _ => StepStateCompleted | Err _ => StepStateFailed end in
  ∃ w2,
    instrumentedFunc fuel stepName tasks ctx body w
    = Some (match r with
            | Ok result => Ok result
            | Err err => Err (newStepError stepName err)
            end, w2)
    ∧ trace w2 = trace w1 ++ [SetDuration d; SetState final]
    ∧ state (instance w2) = final
    ∧ Duration (executionData (instance w2)) = d
    ∧ StartTime (executionData (instance w2)) = StartTime (executionData (instance w1))
    ∧ Retried (executionData (instance w2)) = Retried (executionData (instance w1))
    ∧ clock w2 = clock w1
    ∧ calls w2 = calls w1.
Proof.
  intros Hc Hrun d final. unfold instrumentedFunc.
  rewrite (bind_Some _ _ w None w) by (unfold waitAll; by rewrite WaitAll_completed).
  rewrite (bind_Some _ _ w (clock w) w) by done.
  apply bind_inv in Hrun as ([] & wa & Ea & Hrun).
  rewrite (bind_Some _ _ _ _ _ Ea).
  apply bind_inv in Hrun as ([] & wb & Eb & Hrun).
  rewrite (bind_Some _ _ _ _ _ Eb).
  rewrite (bind_Some _ _ _ _ _ Hrun).
  rewrite (bind_Some _ _ w1 (clock w1) w1) by done.
  rewrite (bind_Some _ _ w1 (instance w1) w1) by done.
  unfold final, d. destruct r; eexists; (split; [reflexivity |]); simpl;
    rewrite <- (assoc_L (++)); done.
Qed.


(** C10.  If the body ends with the error of code
    [ErrPrecedentStepFailure], that is because the wait on the preceding
    tasks failed, and the body has written nothing: the step instance
    is as it was and the trace has not grown.  For a fresh step instance
    this means the state is still [Pending] and the start time and the
    duration still have their zero values. *)
Theorem precedent_failure_writes_nothing fuel stepName tasks ctx body w e w' :
  instrumentedFunc fuel stepName tasks ctx body w = Some (Err e, w') →
  error_Code e = Some ErrPrecedentStepFailure →
  (∃ cause, asynctask.WaitAll ctx tasks = Some (Some cause))
  ∧ instance w' = instance w
  ∧ trace w' = trace w
  ∧ (∀ t0 stepD, w = startWorld t0 stepD →
       state (instance w') = StepStatePending
       ∧ executionData (instance w')
         = {| StartTime := 0%Z; Duration := 0%Z; Retried := None |}).
Proof.
  intros Hrun Hcode.
  destruct (asynctask.WaitAll ctx tasks) as [[cause|]|] eqn:Ew.
  - rewrite (instrumentedFunc_wait_failed _ _ _ _ _ _ _ Ew) in Hrun.
    injection Hrun as <- <-.
    split; [eauto | split; [done | split; [done |]]].
    intros t0 stepD ->. done.
  - exfalso. unfold instrumentedFunc in Hrun.
    rewrite (bind_Some _ _ w None w) in Hrun by (unfold waitAll; by rewrite Ew).
    rewrite (bind_Some _ _ w (clock w) w) in Hrun by done.
    apply bind_inv in Hrun as ([] & wa & Ea & Hrun).
    apply bind_inv in Hrun as ([] & wb & Eb & Hrun).
    apply bind_inv in Hrun as (r & w1 & Er & Hrun).
    rewrite (bind_Some _ _ w1 (clock w1) w1) in Hrun by done.
    rewrite (bind_Some _ _ w1 (instance w1) w1) in Hrun by done.
    destruct r as [v|err]; simpl in Hrun; [discriminate Hrun |].
    injection Hrun as He Hw. subst e. discriminate Hcode.
  - unfold instrumentedFunc in Hrun.
    rewrite bind_None in Hrun; [done |]. unfold waitAll. by rewrite Ew.
Qed.

(** *** Retries *)

Lemma mark_running_spec w :
  ∃ wb, (∀ A (m : M A),
           (set_StartTime (clock w);; set_state StepStateRunning;; m) w = m wb)
        ∧ calls wb = calls w
        ∧ policy wb = policy w.
Proof. eexists. split; [intros A m; reflexivity |]. done. Qed.

Lemma runStepFunc_rounds ctx body w p (errs : list error) fuel :
  policy w = Some p →
  cancelAt ctx = None →
  failsWith body (calls w) errs →
  policyAllows p errs = true →
  ∃ w1 rep1,
    runStepFunc (length errs + fuel) ctx body w = retryer_Run fuel ctx (invoke body) w1
    ∧ calls w1 = calls w + length errs
    ∧ policy w1 = Some (policyAfter p errs)
    ∧ Retried (executionData (instance w1)) = Some rep1
    ∧ Count rep1 = length errs.
Proof.
  intros Hp Hc Hf Ha. unfold runStepFunc.
  rewrite (bind_Some _ _ w (policy w) w) by done. rewrite Hp.
  destruct (set_Retried_spec {| Count := 0; LastError := None |} w)
    as (wa & Ea & _ & Ca & Pa & Ra & _).
  rewrite (bind_Some _ _ _ _ _ Ea).
  destruct (retryer_Run_rounds ctx body errs fuel wa p
              {| Count := 0; LastError := None |})
    as (w1 & rep1 & E1 & _ & C1 & P1 & R1 & N1);
    [congruence | done | done | by rewrite Ca | done |].
  exists w1, rep1. simpl in N1. repeat split; congruence.
Qed.

(** The step of a job whose function fails with [errs] and then succeeds,
    under a policy that lets the driver retry after each of [errs]. *)
Lemma retries_then_success fuel stepName tasks ctx body w p (errs : list error) v :
  forallb asynctask.completed tasks = true →
  policy w = Some p →
  cancelAt ctx = None →
  failsWith body (calls w) errs →
  (body (calls w + length errs)).1 = Ok v →
  policyAllows p errs = true →
  length errs < fuel →
  ∃ w' rep,
    instrumentedFunc fuel stepName tasks ctx body w = Some (Ok v, w')
    ∧ Retried (executionData (instance w')) = Some rep
    ∧ Count rep = length errs
    ∧ calls w' = calls w + length errs + 1
    ∧ state (instance w') = StepStateCompleted.
Proof.
  intros Ht Hp Hc Hf Hv Ha Hfuel.
  destruct (mark_running_spec w) as (wb & Eb & Cb & Pb).
  destruct (runStepFunc_rounds ctx body wb p errs (S (fuel - S (length errs))))
    as (w1 & rep1 & E1 & C1 & P1 & R1 & N1);
    [congruence | done | by rewrite Cb | done |].
  replace (length errs + S (fuel - S (length errs))) with fuel in E1 by lia.
  destruct (retryer_Run_success (fuel - S (length errs)) ctx body w1 v)
    as (w2 & E2 & _ & C2 & R2); [by rewrite C1, Cb |].
  destruct (instrumentedFunc_completed fuel stepName tasks ctx body w (Ok v) w2 Ht)
    as (w3 & E3 & _ & S3 & _ & _ & R3 & _ & C3).
  { rewrite Eb. congruence. }
  exists w3, rep1. repeat split; try done; try congruence. lia.
Qed.

(** The step of a job whose function fails with [errs] and then with [e],
    under a policy that lets the driver retry after each of [errs] but
    not after [e]. *)
Lemma retries_then_refused fuel stepName tasks ctx body w p (errs : list error) e :
  forallb asynctask.completed tasks = true →
  policy w = Some p →
  cancelAt ctx = None →
  failsWith body (calls w) errs →
  (body (calls w + length errs)).1 = Err e →
  policyAllows p errs = true →
  (ShouldRetry (policyAfter p errs) e).1 = false →
  length errs < fuel →
  ∃ w' rep,
    instrumentedFunc fuel stepName tasks ctx body w
    = Some (Err (newStepError stepName e), w')
    ∧ Retried (executionData (instance w')) = Some rep
    ∧ Count rep = length errs
    ∧ calls w' = calls w + length errs + 1
    ∧ state (instance w') = StepStateFailed.
Proof.
  intros Ht Hp Hc Hf He Ha Hs Hfuel.
  destruct (mark_running_spec w) as (wb & Eb & Cb & Pb).
  destruct (runStepFunc_rounds ctx body wb p errs (S (fuel - S (length errs))))
    as (w1 & rep1 & E1 & C1 & P1 & R1 & N1);
    [congruence | done | by rewrite Cb | done |].
  replace (length errs + S (fuel - S (length errs))) with fuel in E1 by lia.
  destruct (retryer_Run_refused (fuel - S (length errs)) ctx body w1 _ rep1 e P1 R1 Hc)
    as (w2 & mid & E2 & _ & C2 & R2); [by rewrite C1, Cb | done |].
  destruct (instrumentedFunc_completed fuel stepName tasks ctx body w (Err e) w2 Ht)
    as (w3 & E3 & _ & S3 & _ & _ & R3 & _ & C3).
  { rewrite Eb. congruence. }
  exists w3, {| Count := Count rep1; LastError := Some e |}.
  repeat split; try done; try congruence. lia.
Qed.

(** Every run of the driver that ends in success: the attempts before the
    last one failed, each was followed by a retry that the report
    counts, and the last one succeeded. *)
Lemma retryer_Run_Ok_inv ctx body fuel :
  ∀ w rep v w1,
    Retried (executionData (instance w)) = Some rep →
    retryer_Run fuel ctx (invoke body) w = Some (Ok v, w1) →
    ∃ (errs : list error) rep1,
      failsWith body (calls w) errs
      ∧ (body (calls w + length errs)).1 = Ok v
      ∧ calls w1 = calls w + length errs + 1
      ∧ Retried (executionData (instance w1)) = Some rep1
      ∧ Count rep1 = Count rep + length errs.
Proof.
  induction fuel as [|fuel IH]; intros w rep v w1 Hrep Hrun; [done |].
  simpl in Hrun.
  destruct (invoke_spec body w) as (wa & Ea & _ & Ca & Pa & Ra & _).
  rewrite (bind_Some _ _ _ _ _ Ea) in Hrun.
  destruct (body (calls w)).1 as [v'|e] eqn:Hb.
  { injection Hrun as <- <-. exists [], rep. simpl.
    rewrite Nat.add_0_r. repeat split; try done; try congruence; lia. }
  destruct (update_report_spec (λ rep, {| Count := Count rep; LastError := Some e |})
              wa rep) as (wb & Eb & _ & Cb & Pb & Rb & _); [congruence |].
  rewrite (bind_Some _ _ _ _ _ Eb) in Hrun.
  rewrite (bind_Some _ _ wb (clock wb) wb) in Hrun by done.
  destruct (ctx_canceled ctx (clock wb)); [done |].
  apply bind_inv in Hrun as (retry & wc & Ec & Hrun).
  destruct (call_policy_inv _ _ _ _ Ec) as [p Hp].
  destruct (call_policy_spec (λ p, ShouldRetry p e) wb p Hp)
    as (wc' & Ec' & _ & Cc & Pc & Rc & _).
  assert (wc' = wc) as -> by congruence.
  destruct retry; [| done].
  apply bind_inv in Hrun as (d & wd & Ed & Hrun).
  destruct (call_policy_inv _ _ _ _ Ed) as [p' Hp'].
  destruct (call_policy_spec SleepInterval wc p' Hp') as (wd' & Ed' & _ & Cd & Pd & Rd & _).
  assert (wd' = wd) as -> by congruence.
  destruct (sleep_spec ctx d wd) as (we & Ee & _ & Ce & Pe & Re).
  rewrite (bind_Some _ _ _ _ _ Ee) in Hrun.
  destruct (update_report_spec
              (λ rep, {| Count := S (Count rep); LastError := LastError rep |})
              we {| Count := Count rep; LastError := Some e |})
    as (wf & Ef & _ & Cf & Pf & Rf & _); [congruence |].
  rewrite (bind_Some _ _ _ _ _ Ef) in Hrun.
  destruct (IH _ _ _ _ Rf Hrun) as (errs & rep1 & F1 & V1 & C1 & R1 & N1).
  assert (Hcalls : calls wf = S (calls w)) by congruence.
  rewrite Hcalls in F1, V1, C1. simpl in N1.
  exists (e :: errs), rep1. split; [| repeat split; try done].
  - unfold failsWith. simpl. f_equal; [exact Hb | exact F1].
  - simpl. by replace (calls w + S (length errs)) with (S (calls w) + length errs) by lia.
  - simpl. lia.
  - simpl. lia.
Qed.

(** Every run of the body of a step with a retry policy that ends in
    success. *)
Lemma instrumentedFunc_Ok_inv fuel stepName tasks ctx body w p v w' :
  policy w = Some p →
  instrumentedFunc fuel stepName tasks ctx body w = Some (Ok v, w') →
  ∃ (errs : list error) rep,
    failsWith body (calls w) errs
    ∧ (body (calls w + length errs)).1 = Ok v
    ∧ calls w' = calls w + length errs + 1
    ∧ Retried (executionData (instance w')) = Some rep
    ∧ Count rep = length errs.
Proof.
  intros Hp Hrun.
  destruct (asynctask.WaitAll ctx tasks) as [[cause|]|] eqn:Ew.
  { by rewrite (instrumentedFunc_wait_failed _ _ _ _ _ _ _ Ew) in Hrun. }
  2:{ unfold instrumentedFunc in Hrun.
      rewrite bind_None in Hrun; [done |]. unfold waitAll. by rewrite Ew. }
  unfold instrumentedFunc in Hrun.
  rewrite (bind_Some _ _ w None w) in Hrun by (unfold waitAll; by rewrite Ew).
  rewrite (bind_Some _ _ w (clock w) w) in Hrun by done.
  destruct (mark_running_spec w) as (wb & Eb & Cb & Pb).
  rewrite Eb in Hrun.
  apply bind_inv in Hrun as (r & w1 & Er & Hrun).
  rewrite (bind_Some _ _ w1 (clock w1) w1) in Hrun by done.
  rewrite (bind_Some _ _ w1 (instance w1) w1) in Hrun by done.
  destruct r as [v'|e]; simpl in Hrun; [| done].
  injection Hrun as <- <-. simpl.
  unfold runStepFunc in Er. rewrite (bind_Some _ _ wb (policy wb) wb) in Er by done.
  rewrite Pb, Hp in Er.
  destruct (set_Retried_spec {| Count := 0; LastError := None |} wb)
    as (wc & Ec & _ & Cc & _ & Rc & _).
  rewrite (bind_Some _ _ _ _ _ Ec) in Er.
  destruct (retryer_Run_Ok_inv ctx body fuel wc _ v' w1 Rc Er)
    as (errs & rep1 & F1 & V1 & C1 & R1 & N1).
  rewrite Cc, Cb in F1, V1, C1. simpl in N1.
  by exists errs, rep1.
Qed.

End BodyFacts.

(** C2.  A step with a retry policy whose function fails [k] times and
    then succeeds has a retry report that counts [k] retries, and its
    function has been called [k + 1] times.  This is so of every run of
    the step that ends in success: the calls before the last one failed
    (with some errors [errs], [k] in number), the last one succeeded.
    And there are such runs: when the function fails with [errs] and
    then succeeds, the policy lets the driver retry after each of these
    failures and the context is not canceled, the step returns the
    result, with that report and that many calls.  With the tests'
    linear policy made for at most 3 retries and a function that fails
    whenever it is called, the step fails with the code [ErrStepFailed]
    and the report counts 3 retries. *)
Theorem retry_report_counts_failures :
  (∀ (Val P : Type) (policyOps : asyncjob.RetryPolicy P)
     fuel stepName tasks ctx (body : nat → asyncjob.Outcome)
     (w : @asyncjob.World Val P) p v w',
     asyncjob.policy w = Some p →
     asyncjob.instrumentedFunc fuel stepName tasks ctx body w = Some (Ok v, w') →
     ∃ (errs : list error) rep,
       asyncjob.failsWith body (asyncjob.calls w) errs
       ∧ (body (asyncjob.calls w + length errs)).1 = Ok v
       ∧ asyncjob.Retried (asyncjob.executionData (asyncjob.instance w')) = Some rep
       ∧ asyncjob.Count rep = length errs
       ∧ asyncjob.calls w' = asyncjob.calls w + length errs + 1)
  ∧ (∀ (Val P : Type) (policyOps : asyncjob.RetryPolicy P)
     fuel stepName tasks ctx (body : nat → asyncjob.Outcome)
     (w : @asyncjob.World Val P) p (errs : list error) v,
     forallb asynctask.completed tasks = true →
     asyncjob.policy w = Some p →
     cancelAt ctx = None →
     asyncjob.failsWith body (asyncjob.calls w) errs →
     (body (asyncjob.calls w + length errs)).1 = Ok v →
     asyncjob.policyAllows p errs = true →
     length errs < fuel →
     ∃ w' rep,
       asyncjob.instrumentedFunc fuel stepName tasks ctx body w = Some (Ok v, w')
       ∧ asyncjob.Retried (asyncjob.executionData (asyncjob.instance w')) = Some rep
       ∧ asyncjob.Count rep = length errs
       ∧ asyncjob.calls w' = asyncjob.calls w + length errs + 1)
  ∧ (∀ (Val : Type) fuel stepName tasks ctx (body : nat → asyncjob.Outcome)
       (w : @asyncjob.World Val asyncjob_test.linearRetryPolicy) interval e,
       forallb asynctask.completed tasks = true →
       asyncjob.policy w = Some (asyncjob_test.newLinearRetryPolicy interval 3) →
       cancelAt ctx = None →
       (∀ n, (body n).1 = Err e) →
       3 < fuel →
       ∃ w' rep err,
         asyncjob.instrumentedFunc fuel stepName tasks ctx body w = Some (Err err, w')
         ∧ error_Code err = Some ErrStepFailed
         ∧ error_Unwrap err = Some e
         ∧ asyncjob.Retried (asyncjob.executionData (asyncjob.instance w')) = Some rep
         ∧ asyncjob.Count rep = 3
         ∧ asyncjob.calls w' = asyncjob.calls w + 4).
Proof.
  split; [| split].
  - intros Val P policyOps fuel stepName tasks ctx body w p v w' Hp Hrun.
    destruct (instrumentedFunc_Ok_inv fuel stepName tasks ctx body w p v w' Hp Hrun)
      as (errs & rep & F & V & C & R & N).
    by exists errs, rep.
  - intros Val P policyOps fuel stepName tasks ctx body w p errs v Ht Hp Hc Hf Hv Ha Hfuel.
    destruct (retries_then_success fuel stepName tasks ctx body w p errs v)
      as (w' & rep & E & R & N & C & _); try done.
    by exists w', rep.
  - intros Val fuel stepName tasks ctx body w interval e Ht Hp Hc Hb Hfuel.
    destruct (retries_then_refused fuel stepName tasks ctx body w
                (asyncjob_test.newLinearRetryPolicy interval 3) [e; e; e] e)
      as (w' & rep & E & R & N & C & _); try done.
    { unfold asyncjob.failsWith. simpl. by rewrite !Hb. }
    exists w', rep, (newStepError stepName e). simpl in *.
    repeat split; try done. lia.
Qed.

(** *** The step bodies of the SQL summary job *)

Section SqlSummaryBodies.
Import asyncjob asyncjob_test sqlSummary.



(** [CheckAuth] after a failed task: still pending. *)
Lemma precedent_failure_writes_nothing_witness :
  let tasks : list asynctask.Waitable := [asynctask.Failed queryError] in
  let w := startWorld 100%Z checkAuthStep in
  ∃ e w',
    instrumentedFunc 1 "CheckAuth" tasks background (CheckAuth background) w
    = Some (Err e, w')
    ∧ error_Code e = Some ErrPrecedentStepFailure
    ∧ state (instance w') = StepStatePending
    ∧ trace w' = [].
Proof.
  intros tasks w.
  edestruct (precedent_failure_writes_nothing 1 "CheckAuth" tasks background
               (CheckAuth background) w)
    as (_ & I & T & F).
  - vm_compute. reflexivity.
  - reflexivity.
  - eexists _, _. split; [vm_compute; reflexivity |]. split; [reflexivity |].
    destruct (F 100%Z checkAuthStep eq_refl) as [S _].
    split; [exact S | exact T].
Defined.

(** A step with the linear policy whose function fails twice and then
    succeeds: two retries, three calls. *)
Lemma retry_report_counts_failures_witness :
  let w := startWorld 100%Z queryTable1Step in
  ∃ w' rep,
    instrumentedFunc 3 "QueryTable1" [] background failsTwice w = Some (Ok 7, w')
    ∧ Retried (executionData (instance w')) = Some rep
    ∧ Count rep = 2
    ∧ calls w' = 3.
Proof.
  intros w.
  destruct (proj1 (proj2 retry_report_counts_failures) nat linearRetryPolicy _
              3 "QueryTable1" [] background failsTwice w
              (newLinearRetryPolicy 3000000%Z 3%Z) [transientError; transientError] 7)
    as (w' & rep & E & R & N & C).
  - reflexivity.
  - reflexivity.
  - reflexivity.
  - reflexivity.
  - reflexivity.
  - vm_compute. reflexivity.
  - simpl. lia.
  - exists w', rep.
    split; [exact E | split; [exact R | split; [exact N |]]].
    rewrite C. reflexivity.
Defined.

End SqlSummaryBodies.

(** ** The builders *)

Section BuilderFacts.
Context {Val : Type} {P : Type}.
Import asyncjob.

Implicit Types (j : @JobDefinition Val P) (sd step p : @StepDefinition Val P)
               (g : graph.Graph (@StepDefinition Val P)).

Local Abbreviation notFound d := (errorString ("step [" +:+ d +:+ "] not found")).
Local Abbreviation newDef := (@newStepDefinition Val P).

(** [getDependsOnSteps] stops at the first name the job does not have;
    when there is none it returns the steps registered under the names,
    in order. *)
Lemma getDependsOnSteps_from_spec j (deps : list string) :
  ∀ acc,
    match firstMissing j deps with
    | Some d => getDependsOnSteps_from deps j acc = Err (notFound d)
    | None =>
        ∃ found, getDependsOnSteps_from deps j acc = Ok (acc ++ found)
                 ∧ Forall2 (λ d sd, steps j !! d = Some sd) deps found
    end.
Proof.
  induction deps as [|d rest IH]; intros acc; simpl.
  - exists []. by rewrite app_nil_r.
  - unfold GetStep. destruct (steps j !! d) as [sd|] eqn:Ed.
    + rewrite bool_decide_eq_true_2 by eauto.
      specialize (IH (acc ++ [sd])).
      destruct (firstMissing j rest); [done |].
      destruct IH as (found & E & F). exists (sd :: found).
      rewrite E, <- (assoc_L (++)). split; [done |]. by constructor.
    + rewrite bool_decide_eq_false_2; [done |]. by intros [? ?].
Qed.

Lemma getDependsOnSteps_spec j sd :
  match firstMissing j (DependsOn sd) with
  | Some d => getDependsOnSteps sd j = Err (notFound d)
  | None =>
      ∃ found, getDependsOnSteps sd j = Ok found
               ∧ Forall2 (λ d sd, steps j !! d = Some sd) (DependsOn sd) found
  end.
Proof.
  unfold getDependsOnSteps.
  pose proof (getDependsOnSteps_from_spec j (DependsOn sd) []) as Hs.
  by destruct (firstMissing j (DependsOn sd)).
Qed.

(** C6, amended.  A builder fails exactly when a named predecessor is
    not in the job definition: the data parent is not the step
    registered under its name, or one of the names the step depends on
    is not a step of the job.  The error is the plain not-found error
    that names the step in question, and the job definition is as it
    was.  In every other case, also when the new step's name is taken,
    the builder returns a step definition and no error. *)
Theorem builders_fail_on_missing_predecessor
    j a bCtx stepName (optionDecorators : list ExecutionOptionPreparer)
    (asyncFunc : AsyncFunc) (continueFunc : ContinueFunc) (bothFunc : AfterBothFunc)
    (parentStep parentStepT parentStepS : StepDefinition) :
  let deps0 := DependsOn (newDef a stepName stepTypeTask optionDecorators) in
  let deps1 := DependsOn (newDef a stepName stepTypeTask
                            (optionDecorators ++ [ExecuteAfter parentStep])) in
  let deps2 := DependsOn (newDef a stepName stepTypeTask
                            (optionDecorators ++ [ExecuteAfter parentStepT;
                                                  ExecuteAfter parentStepS])) in
  let depsRoot := DependsOn (newDef a stepName stepTypeTask
                               (optionDecorators ++ [ExecuteAfter (rootStep j)])) in
  (* AddStep *)
  match firstMissing j deps0 with
  | Some d => AddStep a bCtx j stepName asyncFunc optionDecorators = (Err (notFound d), j)
  | None => is_Ok (AddStep a bCtx j stepName asyncFunc optionDecorators).1 = true
  end
  (* StepAfter *)
  ∧ (if parentMissing j parentStep
     then StepAfter a bCtx j stepName parentStep continueFunc optionDecorators
          = (Err (notFoundInJob parentStep), j)
     else match firstMissing j deps1 with
          | Some d => StepAfter a bCtx j stepName parentStep continueFunc optionDecorators
                      = (Err (notFound d), j)
          | None => is_Ok (StepAfter a bCtx j stepName parentStep continueFunc
                             optionDecorators).1 = true
          end)
  (* StepAfterBoth *)
  ∧ (if parentMissing j parentStepT
     then StepAfterBoth a bCtx j stepName parentStepT parentStepS bothFunc optionDecorators
          = (Err (notFoundInJob parentStepT), j)
     else if parentMissing j parentStepS
     then StepAfterBoth a bCtx j stepName parentStepT parentStepS bothFunc optionDecorators
          = (Err (notFoundInJob parentStepS), j)
     else match firstMissing j deps2 with
          | Some d => StepAfterBoth a bCtx j stepName parentStepT parentStepS bothFunc
                        optionDecorators = (Err (notFound d), j)
          | None => is_Ok (StepAfterBoth a bCtx j stepName parentStepT parentStepS bothFunc
                             optionDecorators).1 = true
          end)
  (* StepFromJobInput *)
  ∧ (if parentMissing j (rootStep j)
     then StepFromJobInput a bCtx j stepName continueFunc optionDecorators
          = (Err (notFoundInJob (rootStep j)), j)
     else match firstMissing j depsRoot with
          | Some d => StepFromJobInput a bCtx j stepName continueFunc optionDecorators
                      = (Err (notFound d), j)
          | None => is_Ok (StepFromJobInput a bCtx j stepName continueFunc
                             optionDecorators).1 = true
          end).
Proof.
  intros deps0 deps1 deps2 depsRoot.
  assert (Hafter : ∀ parent,
    if parentMissing j parent
    then StepAfter a bCtx j stepName parent continueFunc optionDecorators
         = (Err (notFoundInJob parent), j)
    else match firstMissing j (DependsOn (newDef a stepName stepTypeTask
                                 (optionDecorators ++ [ExecuteAfter parent]))) with
         | Some d => StepAfter a bCtx j stepName parent continueFunc optionDecorators
                     = (Err (notFound d), j)
         | None => is_Ok (StepAfter a bCtx j stepName parent continueFunc
                            optionDecorators).1 = true
         end).
  { intros parent. unfold StepAfter. destruct (parentMissing j parent); [done |].
    pose proof (getDependsOnSteps_spec j (newDef a stepName stepTypeTask
                  (optionDecorators ++ [ExecuteAfter parent]))) as Hs.
    destruct (firstMissing j _).
    - by rewrite Hs.
    - destruct Hs as (found & -> & _). done. }
  split; [| split; [apply Hafter | split; [| apply Hafter]]].
  - unfold AddStep.
    pose proof (getDependsOnSteps_spec j
                  (newDef a stepName stepTypeTask optionDecorators)) as Hs.
    fold deps0 in Hs. destruct (firstMissing j deps0).
    + by rewrite Hs.
    + destruct Hs as (found & -> & _).
      by destruct (bool_decide (length found = 0)).
  - unfold StepAfterBoth. destruct (parentMissing j parentStepT); [done |].
    destruct (parentMissing j parentStepS); [done |].
    pose proof (getDependsOnSteps_spec j (newDef a stepName stepTypeTask
                  (optionDecorators ++ [ExecuteAfter parentStepT;
                                        ExecuteAfter parentStepS]))) as Hs.
    fold deps2 in Hs. destruct (firstMissing j deps2).
    + by rewrite Hs.
    + destruct Hs as (found & -> & _). done.
Qed.

(** *** Edges of the definition graph *)

Lemma Connect_edges g (from to : string) nodeFrom nodeTo :
  graph.nodes g !! from = Some nodeFrom →
  graph.nodes g !! to = Some nodeTo →
  graph.nodes (graph.Connect g from to).2 = graph.nodes g
  ∧ edgeIn (graph.Connect g from to).2 from {| graph.From := nodeFrom; graph.To := nodeTo |}
  ∧ (∀ f e, edgeIn g f e → edgeIn (graph.Connect g from to).2 f e).
Proof.
  intros Hf Ht. rewrite (Connect_present g from to nodeFrom nodeTo Hf Ht). simpl.
  split; [done |]. split.
  - unfold edgeIn. simpl. eexists. rewrite lookup_insert_eq. split; [done |].
    apply elem_of_app. right. apply list_elem_of_singleton. done.
  - intros f e (edges & He & Hin). unfold edgeIn. simpl.
    destruct (decide (f = from)) as [-> | Hne].
    + rewrite lookup_insert_eq. eexists. split; [done |].
      rewrite He. simpl. apply elem_of_app. by left.
    + rewrite lookup_insert_ne by done. eauto.
Qed.

Lemma connect_all (ps : list StepDefinition) step :
  ∀ g,
    Forall (λ p, graph.nodes g !! getID p = Some p) ps →
    graph.nodes g !! getID step = Some step →
    let g' := foldl (λ g p, (graph.Connect g (getID p) (getID step)).2) g ps in
    graph.nodes g' = graph.nodes g
    ∧ Forall (λ p, hasEdge g' p step) ps
    ∧ (∀ f e, edgeIn g f e → edgeIn g' f e).
Proof.
  induction ps as [|p ps IH]; intros g Hps Hstep; simpl.
  - done.
  - inversion Hps as [|? ? Hp Hps']; subst.
    destruct (Connect_edges g (getID p) (getID step) p step Hp Hstep) as (N1 & E1 & M1).
    destruct (IH (graph.Connect g (getID p) (getID step)).2) as (N2 & E2 & M2).
    { by rewrite N1. }
    { by rewrite N1. }
    split; [congruence |]. split.
    + constructor; [| done]. apply M2, E1.
    + intros f e He. apply M2, M1, He.
Qed.

Lemma AddNode_fresh_step g step :
  graph.nodes g !! getID step = None →
  graph.nodes (graph.AddNode g step).2 = <[getID step := step]> (graph.nodes g)
  ∧ graph.nodeEdges (graph.AddNode g step).2 = graph.nodeEdges g.
Proof. intros Hn. unfold getID in *. by rewrite AddNode_fresh. Qed.

(** The method that ends every builder, on a definition that is not
    sealed and does not know the step's name: the step is registered,
    there is an edge from each predecessor, and nothing else is lost. *)
Lemma JobDefinition_AddStep_adds j step (ps : list StepDefinition) :
  wellFormed j →
  sealed j = false →
  steps j !! GetName step = None →
  Forall (λ p, steps j !! GetName p = Some p) ps →
  let j' := (JobDefinition_AddStep j step ps).2 in
  steps j' = <[GetName step := step]> (steps j)
  ∧ graph.nodes (stepsDag j') = steps j'
  ∧ rootStep j' = rootStep j
  ∧ sealed j' = sealed j
  ∧ Forall (λ p, hasEdge (stepsDag j') p step) ps
  ∧ (∀ f e, edgeIn (stepsDag j) f e → edgeIn (stepsDag j') f e).
Proof.
  intros (W1 & W2 & W3 & W4) Hs Hn Hps. unfold JobDefinition_AddStep.
  rewrite Hs, Hn. simpl.
  destruct (AddNode_fresh_step (stepsDag j) step) as (N1 & E1).
  { unfold getID. simpl. by rewrite W1. }
  destruct (connect_all ps step (graph.AddNode (stepsDag j) step).2) as (N2 & E2 & M2).
  { eapply Forall_impl; [exact Hps |]. intros p Hp. simpl in Hp.
    rewrite N1, W1. unfold getID at 2. simpl.
    rewrite lookup_insert_ne; [done |]. unfold getID. simpl. congruence. }
  { rewrite N1. apply lookup_insert_eq. }
  repeat split; try done.
  - rewrite N2, N1, W1. done.
  - intros f e (edges & He & Hin). apply M2. exists edges. by rewrite E1.
Qed.

Lemma JobDefinition_AddStep_wellFormed j step (ps : list StepDefinition) :
  wellFormed j →
  ps ≠ [] →
  Forall (λ p, steps j !! GetName p = Some p) ps →
  DependsOn step ≠ [] →
  wellFormed (JobDefinition_AddStep j step ps).2.
Proof.
  intros Hw Hne Hps Hdep.
  destruct (sealed j) eqn:Hs.
  { unfold JobDefinition_AddStep. by rewrite Hs. }
  destruct (steps j !! GetName step) eqn:Hn.
  { unfold JobDefinition_AddStep. by rewrite Hs, Hn. }
  destruct (JobDefinition_AddStep_adds j step ps Hw Hs Hn Hps)
    as (S1 & N1 & R1 & _ & E1 & M1).
  destruct Hw as (W1 & W2 & W3 & W4).
  assert (Hroot : GetName (rootStep j) ≠ GetName step) by congruence.
  unfold wellFormed. rewrite R1, S1. repeat split.
  - by rewrite <- S1.
  - intros n sd. destruct (decide (GetName step = n)) as [<- | Hd].
    + rewrite lookup_insert_eq. congruence.
    + rewrite lookup_insert_ne by done. apply W2.
  - by rewrite lookup_insert_ne.
  - destruct (decide (GetName step = n)) as [<- | Hd].
    + destruct ps as [|p ps]; [done |].
      inversion E1 as [|? ? Hedge _]; subst.
      exists (getID p), {| graph.From := p; graph.To := step |}. done.
    + rewrite lookup_insert_ne in H by done.
      destruct (W4 n sd H H0) as [(f & e & He & Hto) _].
      exists f, e. split; [by apply M1 | done].
  - destruct (decide (GetName step = n)) as [<- | Hd].
    + rewrite lookup_insert_eq in H. congruence.
    + rewrite lookup_insert_ne in H by done. by destruct (W4 n sd H H0).
Qed.

(** *** Every builder keeps the definition well formed *)

Lemma found_registered j (deps : list string) (found : list StepDefinition) :
  wellFormed j →
  Forall2 (λ d sd, steps j !! d = Some sd) deps found →
  Forall (λ p, steps j !! GetName p = Some p) found.
Proof.
  intros (_ & W2 & _) HF. induction HF as [|d sd deps found Hd _ IH]; constructor; [| done].
  by rewrite (W2 d sd Hd).
Qed.

Lemma DependsOn_ExecuteAfter a stepName ty (opts : list ExecutionOptionPreparer)
    (p : @StepDefinition Val P) :
  DependsOn (newDef a stepName ty (opts ++ [ExecuteAfter p]))
  = DependsOn (newDef a stepName ty opts) ++ [GetName p].
Proof. unfold DependsOn, newStepDefinition. simpl. by rewrite foldl_app. Qed.

Lemma DependsOn_ExecuteAfter2 a stepName ty (opts : list ExecutionOptionPreparer)
    (p q : @StepDefinition Val P) :
  DependsOn (newDef a stepName ty (opts ++ [ExecuteAfter p; ExecuteAfter q]))
  = (DependsOn (newDef a stepName ty opts) ++ [GetName p]) ++ [GetName q].
Proof. unfold DependsOn, newStepDefinition. simpl. by rewrite foldl_app. Qed.

Lemma snoc_not_nil {A} (l : list A) (x : A) : l ++ [x] ≠ [].
Proof. by destruct l. Qed.

Lemma Forall2_nonempty {A B} (R : A → B → Prop) (l : list A) (k : list B) :
  Forall2 R l k → l ≠ [] → k ≠ [].
Proof. intros HF Hl ->. apply Forall2_nil_inv_r in HF. done. Qed.

Lemma AddStep_wellFormed j a bCtx stepName (f : AsyncFunc) opts :
  wellFormed j → wellFormed (AddStep a bCtx j stepName f opts).2.
Proof.
  intros Hw. unfold AddStep.
  pose proof (getDependsOnSteps_spec j (newDef a stepName stepTypeTask opts)) as Hs.
  destruct (firstMissing j _).
  { by rewrite Hs. }
  destruct Hs as (found & -> & HF).
  pose proof (found_registered j _ _ Hw HF) as Hreg.
  destruct (bool_decide (length found = 0)) eqn:Hlen; simpl.
  - apply JobDefinition_AddStep_wellFormed; [done | | |].
    + by destruct found.
    + apply Forall_app. split; [done |]. constructor; [| done].
      by destruct Hw as (_ & _ & W3 & _).
    + unfold DependsOn. simpl. by destruct (DependOn _).
  - apply bool_decide_eq_false in Hlen.
    apply JobDefinition_AddStep_wellFormed; [done | | done |].
    + by destruct found.
    + intros Hnil.
      change (DependsOn (newDef a stepName stepTypeTask opts) = []) in Hnil.
      rewrite Hnil in HF. apply Forall2_nil_inv_l in HF. by subst.
Qed.

Lemma StepAfter_wellFormed j a bCtx stepName (parent : @StepDefinition Val P)
    (f : ContinueFunc) opts :
  wellFormed j → wellFormed (StepAfter a bCtx j stepName parent f opts).2.
Proof.
  intros Hw. unfold StepAfter. destruct (parentMissing j parent); [done |].
  pose proof (getDependsOnSteps_spec j (newDef a stepName stepTypeTask
                (opts ++ [ExecuteAfter parent]))) as Hs.
  destruct (firstMissing j _).
  { by rewrite Hs. }
  destruct Hs as (found & -> & HF).
  pose proof (found_registered j _ _ Hw HF) as Hreg.
  assert (Hdeps : DependsOn (newDef a stepName stepTypeTask (opts ++ [ExecuteAfter parent]))
                  ≠ []).
  { rewrite DependsOn_ExecuteAfter. apply snoc_not_nil. }
  pose proof (Forall2_nonempty _ _ _ HF Hdeps) as Hfound.
  rewrite bool_decide_eq_false_2 by (by destruct found). simpl.
  by apply JobDefinition_AddStep_wellFormed.
Qed.

Lemma StepAfterBoth_wellFormed j a bCtx stepName (parentT parentS : @StepDefinition Val P)
    (f : AfterBothFunc) opts :
  wellFormed j → wellFormed (StepAfterBoth a bCtx j stepName parentT parentS f opts).2.
Proof.
  intros Hw. unfold StepAfterBoth. destruct (parentMissing j parentT); [done |].
  destruct (parentMissing j parentS); [done |].
  pose proof (getDependsOnSteps_spec j (newDef a stepName stepTypeTask
                (opts ++ [ExecuteAfter parentT; ExecuteAfter parentS]))) as Hs.
  destruct (firstMissing j _).
  { by rewrite Hs. }
  destruct Hs as (found & -> & HF).
  pose proof (found_registered j _ _ Hw HF) as Hreg.
  assert (Hdeps : DependsOn (newDef a stepName stepTypeTask
                               (opts ++ [ExecuteAfter parentT; ExecuteAfter parentS])) ≠ []).
  { rewrite DependsOn_ExecuteAfter2. apply snoc_not_nil. }
  pose proof (Forall2_nonempty _ _ _ HF Hdeps) as Hfound.
  rewrite bool_decide_eq_false_2 by (by destruct found). simpl.
  by apply JobDefinition_AddStep_wellFormed.
Qed.

Lemma NewJobDefinition_wellFormed a jobname :
  wellFormed (@NewJobDefinition Val P a jobname).
Proof.
  unfold wellFormed, NewJobDefinition. simpl. repeat split.
  - intros n sd Hn. apply lookup_singleton_Some in Hn as [<- <-]. done.
  - apply lookup_singleton_eq.
  - apply lookup_singleton_Some in H as [<- <-]. done.
  - apply lookup_singleton_Some in H as [<- <-]. done.
Qed.

Lemma Built_wellFormed j : Built j → wellFormed j.
Proof.
  induction 1 as [a jobname | j _ IH | j a bCtx n f opts _ IH | j a bCtx n p f opts _ IH
                  | j a bCtx n p q f opts _ IH | j a bCtx n f opts _ IH].
  - apply NewJobDefinition_wellFormed.
  - exact IH.
  - by apply AddStep_wellFormed.
  - by apply StepAfter_wellFormed.
  - by apply StepAfterBoth_wellFormed.
  - by apply StepAfter_wellFormed.
Qed.

(** C7.  In every job definition that construction yields, each step
    other than the root names at least one dependency and has an edge of
    the graph pointing to it.  And when [AddStep] is given a step that
    would have no predecessor (no option names a dependency), on a
    definition that is not sealed and does not know the name, the step
    it registers depends on the root step alone, the graph has the edge
    from the root to it, and in a job instance its body waits for the
    task of the root's instance. *)
Theorem root_gates_steps_without_predecessor :
  (∀ j, Built j →
     ∀ n sd, steps j !! n = Some sd → n ≠ GetName (rootStep j) →
       hasPredecessor (stepsDag j) n ∧ DependsOn sd ≠ [])
  ∧ (∀ j a bCtx stepName (stepFunc : AsyncFunc) opts,
       Built j →
       Sealed j = false →
       steps j !! stepName = None →
       DependsOn (newDef a stepName stepTypeTask opts) = [] →
       ∃ stepD,
         (AddStep a bCtx j stepName stepFunc opts).1 = Ok stepD
         ∧ steps (AddStep a bCtx j stepName stepFunc opts).2 !! stepName = Some stepD
         ∧ DependsOn stepD = [GetName (RootStep j)]
         ∧ hasEdge (stepsDag (AddStep a bCtx j stepName stepFunc opts).2) (RootStep j) stepD
         ∧ (∀ ji rootInstance,
              GetStepInstance ji (GetName (RootStep j)) = Some rootInstance →
              precedingTasksOf stepD ji = [StepInstance_Waitable rootInstance])).
Proof.
  split.
  - intros j Hb n sd Hn Hroot.
    destruct (Built_wellFormed j Hb) as (_ & _ & _ & W4). by apply W4.
  - intros j a bCtx stepName stepFunc opts Hb Hs Hn Hdeps.
    pose proof (Built_wellFormed j Hb) as Hw.
    pose proof (getDependsOnSteps_spec j (newDef a stepName stepTypeTask opts)) as Hfound.
    rewrite Hdeps in Hfound. simpl in Hfound. destruct Hfound as (found & Hg & HF).
    apply Forall2_nil_inv_l in HF as ->.
    unfold AddStep. rewrite Hg. simpl.
    set (stepD := set_instanceCreator _ _).
    destruct (JobDefinition_AddStep_adds j stepD [RootStep j] Hw Hs Hn)
      as (S1 & _ & _ & _ & E1 & _).
    { constructor; [| done]. by destruct Hw as (_ & _ & W3 & _). }
    exists stepD. split; [done |]. split; [| split; [| split]].
    + rewrite S1. apply lookup_insert_eq.
    + unfold stepD. unfold DependsOn at 1. simpl. by rewrite Hdeps.
    + by inversion E1.
    + intros ji rootInstance Hri.
      unfold precedingTasksOf, getDependsOnStepInstances.
      replace (DependsOn stepD) with [GetName (RootStep j)]
        by (unfold stepD; unfold DependsOn at 1; simpl; by rewrite Hdeps).
      simpl. by rewrite Hri.
Qed.

End BuilderFacts.

(** ** Waiting for a job instance *)

Section WaitFacts.
Context {Val : Type} {P : Type}.
Import asyncjob.

Implicit Types (ji : @JobInstance Val P) (tasks : list (asynctask.Task Val)).

Lemma awaitEach_terminal ctx now tasks :
  Forall (λ t, asynctask.IsTerminalState t = true) tasks →
  awaitEach ctx now tasks = Some (asynctask.firstFailure tasks).
Proof.
  induction 1 as [|t tasks Ht _ IH]; simpl; [done |].
  rewrite IH. by destruct t.
Qed.

Lemma jobTasks_terminal ji :
  terminated ji →
  Forall (λ t, asynctask.IsTerminalState t = true) (jobTasks ji).
Proof.
  intros Hterm. apply Forall_forall. intros t Ht.
  unfold jobTasks in Ht. apply list_elem_of_omap in Ht as (stepName & _ & Hs).
  unfold GetStepInstance in Hs.
  destruct (stepInstances ji !! stepName) as [si|] eqn:Hsi; [| done].
  simpl in Hs. injection Hs as <-. by eapply Hterm.
Qed.


End WaitFacts.

(** ** The SQL summary job under construction and after it ran *)

Section SqlSummaryJob.
Import graph asyncjob asyncjob_test sqlSummary.

(** C3, on the code: [TestDefinitionGraph] seals the definition and
    expects [AddStep] to return an error; the builder returns a step
    definition and nil.  The sealed definition itself is as it was: the
    method the builder ends with refuses to change it. *)
Theorem AddStep_on_sealed_job_returns_nil :
  let sealedJob := Seal withCheckAuth.2 in
  let added := AddStep 3 background sealedJob "EmailNotification2"
                 emailNotificationStepFunc [WithContextEnrichment (λ ctx, ctx)] in
  Sealed withCheckAuth.2 = false
  ∧ Sealed sealedJob = true
  ∧ is_Ok added.1 = true
  ∧ Sealed added.2 = true
  ∧ (JobDefinition_AddStep sealedJob stranger [RootStep sealedJob]).1
    = Some (newJobError ErrJobSealed "")
  ∧ steps added.2 !! "EmailNotification2" = None.
Proof. vm_compute. repeat split. Qed.

(** C6, as stated, fails: [CheckAuth] is a step of the job, and [AddStep]
    with the same name again returns a step definition and nil, not a
    duplicate-step error. *)
Lemma AddStep_duplicate_name_returns_nil :
  is_Some (GetStep withCheckAuth.2 "CheckAuth")
  ∧ is_Ok (AddStep 3 background withCheckAuth.2 "CheckAuth" CheckAuth []).1 = true
  ∧ ¬ (∃ e, (AddStep 3 background withCheckAuth.2 "CheckAuth" CheckAuth []).1 = Err e).
Proof.
  split; [| split].
  - vm_compute. eauto.
  - vm_compute. reflexivity.
  - intros [e He]. vm_compute in He. discriminate He.
Qed.

(** A step after a parent that is not in the job, and a step that names
    a dependency that is not in the job. *)
Lemma builders_fail_on_missing_predecessor_witness :
  StepAfter 3 background withCheckAuth.2 "GetConnection" stranger GetConnection []
  = (Err (errorString "step [stranger] not found in job"), withCheckAuth.2)
  ∧ AddStep 3 background withCheckAuth.2 "emailNotification" emailNotificationStepFunc
      [ExecuteAfter stranger]
    = (Err (errorString "step [stranger] not found"), withCheckAuth.2).
Proof.
  pose proof (builders_fail_on_missing_predecessor withCheckAuth.2 3 background
                "GetConnection" [] CheckAuth GetConnection ExecuteQuery_failing
                stranger stranger stranger) as (_ & Hafter & _).
  pose proof (builders_fail_on_missing_predecessor withCheckAuth.2 3 background
                "emailNotification" [ExecuteAfter stranger] emailNotificationStepFunc
                GetConnection ExecuteQuery_failing
                stranger stranger stranger) as (Hadd & _).
  split.
  - exact Hafter.
  - exact Hadd.
Defined.

(** [CheckAuth] has no predecessor of its own: the root gates it. *)
Lemma root_gates_steps_without_predecessor_witness :
  ∃ stepD,
    withCheckAuth.1 = Ok stepD
    ∧ DependsOn stepD = ["sqlSummaryJob"]
    ∧ hasEdge (stepsDag withCheckAuth.2) (RootStep newJob) stepD.
Proof.
  destruct (proj2 (root_gates_steps_without_predecessor (Val:=nat) (P:=linearRetryPolicy))
              newJob 2 background "CheckAuth" CheckAuth [])
    as (stepD & E & _ & D & G & _).
  - apply Built_new.
  - reflexivity.
  - reflexivity.
  - reflexivity.
  - exists stepD. split; [exact E |]. split; [exact D | exact G].
Defined.


End SqlSummaryJob.

(* ================================================================== *)
(** ** The graph under sequences of calls *)
(* ================================================================== *)

Section GraphRuns.
Context {NT : Type} `{graph.NodeConstrain NT}.
Import graph.
Implicit Types (g : Graph NT) (op : Op NT) (ops : list (Op NT)).

Lemma doOp_wellKeyed g op : wellKeyed g → wellKeyed (doOp g op).2.
Proof.
  intros [Hn He]. destruct op as [n|from to]; simpl.
  - unfold AddNode. destruct (nodes g !! ID (DotSpec n)) eqn:E; simpl; [done|].
    split; simpl.
    + intros k m. destruct (decide (k = ID (DotSpec n))) as [->|Hk].
      * rewrite lookup_insert_eq. by intros [= <-].
      * rewrite lookup_insert_ne by done. apply Hn.
    + intros k es e Hes Hin. destruct (He k es e Hes Hin) as [Hf Ht].
      split; (rewrite lookup_insert_ne; [done | congruence]).
  - unfold Connect.
    destruct (nodes g !! from) as [nodeFrom|] eqn:Ef; simpl; [|done].
    destruct (nodes g !! to) as [nodeTo|] eqn:Et; simpl; [|done].
    split; [done|]. simpl.
    intros k es e. destruct (decide (k = from)) as [->|Hk].
    + rewrite lookup_insert_eq. intros [= <-] [Hin| ->%list_elem_of_singleton]%elem_of_app.
      * destruct (nodeEdges g !! from) as [old|] eqn:Eo; simpl in Hin.
        -- by apply (He from old).
        -- by apply elem_of_nil in Hin.
      * simpl. split; [done|]. by rewrite (Hn _ _ Et).
    + rewrite lookup_insert_ne by done. apply He.
Qed.

Lemma doOps_wellKeyed ops : ∀ g, wellKeyed g → wellKeyed (doOps g ops).
Proof.
  induction ops as [|op ops IH]; intros g Hg; [done|].
  simpl. apply IH. by apply doOp_wellKeyed.
Qed.

Lemma NewGraph_wellKeyed (f : NT → NT → DotEdgeSpec) : wellKeyed (NewGraph f).
Proof.
  split.
  - intros k n. simpl. by rewrite lookup_empty.
  - intros k es e. simpl. by rewrite lookup_empty.
Qed.

(** X1.  Whatever calls of [AddNode] and [Connect] are made on a new
    graph, and whatever they return, every node is stored under its own
    ID and every edge joins two nodes of the graph: the edges kept for a
    key start at the node stored under that key and end at a node that
    is stored under its ID. *)
Theorem edges_join_nodes_of_the_graph (f : NT → NT → DotEdgeSpec) ops :
  wellKeyed (doOps (NewGraph f) ops).
Proof. apply doOps_wellKeyed, NewGraph_wellKeyed. Qed.

Lemma doOp_grows g op :
  (∀ k n, nodes g !! k = Some n → nodes (doOp g op).2 !! k = Some n)
  ∧ (∀ k es, nodeEdges g !! k = Some es →
       ∃ more, nodeEdges (doOp g op).2 !! k = Some (es ++ more))
  ∧ edgeSpecFunc (doOp g op).2 = edgeSpecFunc g.
Proof.
  destruct op as [n|from to]; simpl.
  - unfold AddNode. destruct (nodes g !! ID (DotSpec n)) eqn:E; simpl.
    + split; [done|]. split; [|done]. intros k es Hes. exists []. by rewrite app_nil_r.
    + split; [|split; [|done]].
      * intros k m Hk. rewrite lookup_insert_ne; [done | congruence].
      * intros k es Hes. exists []. by rewrite app_nil_r.
  - unfold Connect.
    destruct (nodes g !! from) as [nodeFrom|] eqn:Ef; simpl;
      [| split; [done|]; split; [|done]; intros k es Hes; exists []; by rewrite app_nil_r].
    destruct (nodes g !! to) as [nodeTo|] eqn:Et; simpl;
      [| split; [done|]; split; [|done]; intros k es Hes; exists []; by rewrite app_nil_r].
    split; [done|]. split; [|done].
    intros k es Hes. destruct (decide (k = from)) as [->|Hk].
    + rewrite lookup_insert_eq, Hes. simpl. by eexists.
    + rewrite lookup_insert_ne by done. exists []. by rewrite app_nil_r.
Qed.

(** X2.  Calls of [AddNode] and [Connect] only add: a node, once
    stored under a key, stays there unchanged; the list of out-edges of
    a node only grows at its end; the edge-spec function is never
    replaced. *)
Theorem graph_only_grows ops : ∀ g,
  (∀ k n, nodes g !! k = Some n → nodes (doOps g ops) !! k = Some n)
  ∧ (∀ k es, nodeEdges g !! k = Some es →
       ∃ more, nodeEdges (doOps g ops) !! k = Some (es ++ more))
  ∧ edgeSpecFunc (doOps g ops) = edgeSpecFunc g.
Proof.
  induction ops as [|op ops IH]; intros g.
  - simpl. split; [done|]. split; [|done]. intros k es Hes. exists []. by rewrite app_nil_r.
  - simpl. destruct (IH (doOp g op).2) as (IHn & IHe & IHf).
    destruct (doOp_grows g op) as (Hn & He & Hf).
    split; [|split].
    + intros k n Hk. by apply IHn, Hn.
    + intros k es Hes. destruct (He k es Hes) as [m1 H1].
      destruct (IHe _ _ H1) as [m2 H2]. exists (m1 ++ m2). by rewrite (assoc_L (++)).
    + by rewrite IHf.
Qed.

(** X3.  [Connect] does not look for an edge that is already there:
    connecting the same two nodes a second time succeeds too, and the
    node then has the edge twice at the end of its out-edges. *)
Theorem Connect_keeps_parallel_edges g (from to : string) (nodeFrom nodeTo : NT) :
  nodes g !! from = Some nodeFrom →
  nodes g !! to = Some nodeTo →
  let edge := {| From := nodeFrom; To := nodeTo |} in
  let g1 := (Connect g from to).2 in
  (Connect g from to).1 = None
  ∧ (Connect g1 from to).1 = None
  ∧ nodeEdges (Connect g1 from to).2 !! from
    = Some (default [] (nodeEdges g !! from) ++ [edge; edge])
  ∧ nodes (Connect g1 from to).2 = nodes g.
Proof.
  intros Hf Ht. simpl.
  rewrite (Connect_present g from to nodeFrom nodeTo Hf Ht). simpl.
  split; [done|].
  erewrite Connect_present; [|done|done]. simpl.
  split; [done|]. split; [|done].
  rewrite !lookup_insert_eq. simpl. by rewrite <- (assoc_L (++)).
Qed.

(** X4.  However [ToDotGraph] happens to range over the map of edges,
    the out-edges of one node are handed to the template next to each
    other and in the order the [Connect] calls put them. *)
Theorem out_edges_rendered_in_Connect_order g (visit : list (string * list (Edge NT)))
    (k : string) (es : list (Edge NT)) :
  MapRange (nodeEdges g) visit →
  nodeEdges g !! k = Some es →
  ∃ before after,
    collectEdges g visit
    = before ++ ((λ edge, edgeSpecFunc g (From edge) (To edge)) <$> es) ++ after.
Proof.
  unfold MapRange. intros Hv Hk.
  assert (Hin : (k, es) ∈ visit).
  { rewrite Hv. by apply elem_of_map_to_list. }
  apply list_elem_of_split in Hin as (l1 & l2 & ->).
  exists (collectEdges g l1), (collectEdges g l2).
  unfold collectEdges. by rewrite bind_app, bind_cons.
Qed.

(** X5.  In a graph made by [AddNode] and [Connect] calls on a new
    graph, the node specs [ToDotGraph] hands to the template have
    pairwise distinct IDs. *)
Theorem rendered_node_IDs_are_distinct (f : NT → NT → DotEdgeSpec) ops
    (visit : list (string * NT)) :
  MapRange (nodes (doOps (NewGraph f) ops)) visit →
  NoDup (ID <$> collectNodes visit).
Proof.
  unfold MapRange. intros Hv.
  destruct (doOps_wellKeyed ops _ (NewGraph_wellKeyed f)) as [Hn _].
  assert (E : ID <$> collectNodes visit = visit.*1).
  { unfold collectNodes. rewrite <- list_fmap_compose.
    apply list_eq_Forall2. apply Forall2_fmap, Forall_Forall2_diag, Forall_forall.
    intros [k n] Hin. simpl. apply Hn. apply elem_of_map_to_list. by rewrite <- Hv. }
  rewrite E, Hv. apply NoDup_fst_map_to_list.
Qed.

Lemma MapRange_small {V} (m : gmap string V) (visit : list (string * V)) :
  size m ≤ 1 → MapRange m visit → visit = map_to_list m.
Proof.
  unfold MapRange. rewrite <- length_map_to_list. intros Hs Hv.
  destruct (map_to_list m) as [|x [|y l]]; simpl in Hs.
  - by apply Permutation_nil_r.
  - by apply Permutation_singleton_r.
  - lia.
Qed.

(** X6.  With at most one node and at most one node that has
    out-edges there is only one order to range over: [ToDotGraph] then
    has one possible result, whatever the template. *)
Theorem ToDotGraph_of_a_single_node_is_deterministic {TE : Type}
    (template : templateRef → result TE string) g (out1 out2 : result TE string) :
  size (nodes g) ≤ 1 →
  size (nodeEdges g) ≤ 1 →
  ToDotGraph template g out1 →
  ToDotGraph template g out2 →
  out1 = out2.
Proof.
  intros Hn He (nv1 & ev1 & N1 & E1 & ->) (nv2 & ev2 & N2 & E2 & ->).
  by rewrite (MapRange_small _ _ Hn N1), (MapRange_small _ _ Hn N2),
             (MapRange_small _ _ He E1), (MapRange_small _ _ He E2).
Qed.
Lemma length_collectEdges g (visit : list (string * list (Edge NT))) :
  length (collectEdges g visit) = sum_list ((λ kv, length kv.2) <$> visit).
Proof.
  unfold collectEdges. induction visit as [|[k es] visit IH]; [done|].
  rewrite bind_cons, length_app, length_fmap, IH. done.
Qed.

Lemma sum_list_cons (x : nat) (l : list nat) : sum_list (x :: l) = x + sum_list l.
Proof. reflexivity. Qed.

Lemma sum_list_Permutation (l1 l2 : list nat) : l1 ≡ₚ l2 → sum_list l1 = sum_list l2.
Proof. induction 1; simpl; lia. Qed.

(** The number of edges the graph keeps. *)
Local Abbreviation edgeCount g :=
  (sum_list ((λ kv : string * list (Edge NT), length kv.2) <$> map_to_list (nodeEdges g))).

Lemma doOp_counts g op :
  size (nodes (doOp g op).2)
  = size (nodes g) + (if isAddNode op && bool_decide ((doOp g op).1 = None) then 1 else 0)
  ∧ edgeCount (doOp g op).2
    = edgeCount g + (if isConnect op && bool_decide ((doOp g op).1 = None) then 1 else 0).
Proof.
  destruct op as [n|from to]; simpl.
  - unfold AddNode. destruct (nodes g !! ID (DotSpec n)) eqn:E; simpl.
    + split; lia.
    + rewrite map_size_insert_None by done. split; lia.
  - unfold Connect.
    destruct (nodes g !! from) as [nodeFrom|] eqn:Ef; simpl; [|split; lia].
    destruct (nodes g !! to) as [nodeTo|] eqn:Et; simpl; [|split; lia].
    split; [lia|].
    destruct (nodeEdges g !! from) as [old|] eqn:Eo; simpl.
    + rewrite <- (insert_delete_eq (nodeEdges g)).
      rewrite (sum_list_Permutation _ _
                 (fmap_Permutation _ _ _ (map_to_list_insert _ from _ (lookup_delete_eq _ _)))).
      rewrite <- (sum_list_Permutation _ _
                 (fmap_Permutation _ _ _ (map_to_list_delete _ from old Eo))).
      rewrite !fmap_cons, !sum_list_cons. cbn [snd]. rewrite length_app. cbn [length]. lia.
    + rewrite (sum_list_Permutation _ _
                 (fmap_Permutation _ _ _ (map_to_list_insert _ from _ Eo))).
      rewrite fmap_cons, sum_list_cons. cbn [snd app length]. lia.
Qed.

Lemma doOps_counts ops : ∀ g,
  size (nodes (doOps g ops)) = size (nodes g) + succeeded isAddNode g ops
  ∧ edgeCount (doOps g ops) = edgeCount g + succeeded isConnect g ops.
Proof.
  induction ops as [|op ops IH]; intros g; [simpl; split; lia|].
  change (doOps g (op :: ops)) with (doOps (doOp g op).2 ops). cbn [succeeded].
  destruct (IH (doOp g op).2) as [IHn IHe]. destruct (doOp_counts g op) as [Hn He].
  split.
  - rewrite IHn, Hn. lia.
  - rewrite IHe, He. lia.
Qed.

(** X7.  [ToDotGraph] hands the template one node spec for every
    [AddNode] call that returned nil and one edge spec for every
    [Connect] call that returned nil, no more and no less. *)
Theorem every_successful_call_is_rendered_once (f : NT → NT → DotEdgeSpec) ops
    (nodeVisit : list (string * NT)) (edgeVisit : list (string * list (Edge NT))) :
  let g := doOps (NewGraph f) ops in
  MapRange (nodes g) nodeVisit →
  MapRange (nodeEdges g) edgeVisit →
  length (collectNodes nodeVisit) = succeeded isAddNode (NewGraph f) ops
  ∧ length (collectEdges g edgeVisit) = succeeded isConnect (NewGraph f) ops.
Proof.
  intros g. unfold MapRange. intros Hn He.
  destruct (doOps_counts ops (NewGraph f)) as [Cn Ce]. fold g in Cn, Ce.
  split.
  - unfold collectNodes. rewrite length_fmap, (Permutation_length Hn), length_map_to_list.
    rewrite Cn. simpl. by rewrite map_size_empty.
  - rewrite length_collectEdges.
    rewrite (sum_list_Permutation _ _ (fmap_Permutation _ _ _ He)), Ce.
    simpl. by rewrite map_to_list_empty.
Qed.

End GraphRuns.

(* ================================================================== *)
(** ** The retry policy and the error injectors of the tests *)
(* ================================================================== *)

Section TestPolicy.
Import asyncjob asyncjob_test.
Implicit Types (lrp : linearRetryPolicy) (e : error) (errs : list error).

Lemma wrap_int_id (z : Z) : (- 2 ^ 63 ≤ z < 2 ^ 63)%Z → wrap_int z = z.
Proof.
  intros Hz. unfold wrap_int.
  rewrite Z.mod_small by lia. lia.
Qed.

Lemma afterSleeps_S k lrp :
  afterSleeps (S k) lrp = (linearRetryPolicy_SleepInterval (afterSleeps k lrp)).2.
Proof. reflexivity. Qed.

Lemma afterSleeps_fields k lrp :
  (- 2 ^ 63 ≤ tried lrp)%Z →
  (tried lrp + Z.of_nat k < 2 ^ 63)%Z →
  afterSleeps k lrp
  = {| sleepInterval := sleepInterval lrp;
       maxRetryCount := maxRetryCount lrp;
       tried := tried lrp + Z.of_nat k |}.
Proof.
  intros Hlo. induction k as [|k IH]; intros Hhi.
  - simpl. destruct lrp; simpl. f_equal. lia.
  - rewrite afterSleeps_S, IH by lia. unfold linearRetryPolicy_SleepInterval. simpl.
    f_equal. rewrite wrap_int_id by lia. lia.
Qed.

Lemma policyAllows_linear errs : ∀ lrp,
  (- 2 ^ 63 ≤ tried lrp)%Z →
  (tried lrp + Z.of_nat (length errs) < 2 ^ 63)%Z →
  policyAllows lrp errs
  = bool_decide (errs = [] ∨ tried lrp + Z.of_nat (length errs) ≤ maxRetryCount lrp)%Z.
Proof.
  induction errs as [|e errs IH]; intros lrp Hlo Hhi.
  - cbn [policyAllows]. symmetry. apply bool_decide_eq_true_2. by left.
  - simpl in Hhi. cbn [policyAllows]. cbn.
    destruct (decide (tried lrp < maxRetryCount lrp)%Z) as [Hlt|Hge].
    + rewrite (bool_decide_eq_true_2 _ Hlt).
      rewrite IH; cbn; rewrite ?wrap_int_id by lia; try lia.
      apply bool_decide_ext. split.
      * intros [->| Hle]; right; simpl; lia.
      * intros [?|Hle]; [done|]. destruct errs; [by left | right]. simpl in *. lia.
    + rewrite (bool_decide_eq_false_2 _ Hge). symmetry. apply bool_decide_eq_false.
      intros [?|Hle]; [done|]. simpl in Hle. lia.
Qed.

Lemma policyAfter_linear errs : ∀ lrp,
  policyAfter lrp errs = afterSleeps (length errs) lrp.
Proof.
  induction errs as [|e errs IH]; intros lrp; [done|].
  cbn [policyAfter length]. rewrite IH. unfold afterSleeps.
  by rewrite Nat.iter_succ_r.
Qed.

(** X8.  A [linearRetryPolicy] object counts its [SleepInterval] calls
    and never resets the count: after [k] of them (fewer than 2^63, so
    that the Go [int] has not wrapped) [ShouldRetry] answers whether
    [k < maxRetryCount], whatever the error, and leaves the object as it
    is; [SleepInterval] always returns the configured interval; and the
    object then allows a further run of retries exactly when that run is
    empty or fits into what is left of [maxRetryCount]. *)
Theorem linearRetryPolicy_allows_maxRetryCount_retries
    (interval : time_Duration) (maxRetries : Z) (k : nat) e errs :
  (Z.of_nat k + Z.of_nat (length errs) < 2 ^ 63)%Z →
  let lrp := afterSleeps k (newLinearRetryPolicy interval maxRetries) in
  ShouldRetry lrp e = (bool_decide (Z.of_nat k < maxRetries)%Z, lrp)
  ∧ (SleepInterval lrp).1 = interval
  ∧ policyAllows lrp errs
    = bool_decide (errs = [] ∨ Z.of_nat k + Z.of_nat (length errs) ≤ maxRetries)%Z.
Proof.
  intros Hk lrp. subst lrp.
  rewrite afterSleeps_fields by (simpl; lia). simpl.
  split; [|split; [done|]].
  - unfold linearRetryPolicy_ShouldRetry. simpl. f_equal.
    destruct (decide (Z.of_nat k < maxRetries)%Z) as [Hlt|Hge].
    + by rewrite !bool_decide_eq_true_2 by lia.
    + by rewrite !bool_decide_eq_false_2 by lia.
  - by rewrite policyAllows_linear by (simpl; lia).
Qed.

Lemma afterCalls_S k (f : errFunc) :
  afterCalls (S k) f = (errFunc_call (afterCalls k f)).2.
Proof. reflexivity. Qed.

Lemma afterCalls_getErrorFunc err (count : Z) k :
  (count < 2 ^ 63)%Z →
  afterCalls k (getErrorFunc err count)
  = getErrorFunc err (if bool_decide (0 < count)%Z
                      then Z.max 0 (count - Z.of_nat k) else count).
Proof.
  intros Hc. induction k as [|k IH].
  - simpl. f_equal. case_bool_decide; lia.
  - rewrite afterCalls_S, IH. unfold errFunc_call.
    destruct (decide (0 < count)%Z) as [Hpos|Hneg].
    + rewrite !(bool_decide_eq_true_2 (0 < count)%Z) by done.
      destruct (decide (0 < 0 `max` (count - Z.of_nat k))%Z) as [Hrem|Hrem].
      * rewrite (bool_decide_eq_true_2 _ Hrem). cbn [snd]. f_equal.
        rewrite wrap_int_id by lia. lia.
      * rewrite (bool_decide_eq_false_2 _ Hrem). cbn [snd]. f_equal. lia.
    + by rewrite !(bool_decide_eq_false_2 (0 < count)%Z) by done.
Qed.

Lemma afterCalls_getPanicFunc (count : Z) k :
  (count < 2 ^ 63)%Z →
  afterCalls k (getPanicFunc count)
  = getPanicFunc (if bool_decide (0 < count)%Z
                  then Z.max 0 (count - Z.of_nat k) else count).
Proof.
  intros Hc. induction k as [|k IH].
  - simpl. f_equal. case_bool_decide; lia.
  - rewrite afterCalls_S, IH. unfold errFunc_call.
    destruct (decide (0 < count)%Z) as [Hpos|Hneg].
    + rewrite !(bool_decide_eq_true_2 (0 < count)%Z) by done.
      destruct (decide (0 < 0 `max` (count - Z.of_nat k))%Z) as [Hrem|Hrem].
      * rewrite (bool_decide_eq_true_2 _ Hrem). cbn [snd]. f_equal.
        rewrite wrap_int_id by lia. lia.
      * rewrite (bool_decide_eq_false_2 _ Hrem). cbn [snd]. f_equal. lia.
    + by rewrite !(bool_decide_eq_false_2 (0 < count)%Z) by done.
Qed.

Lemma getErrorFunc_call_after err (count : Z) k :
  (count < 2 ^ 63)%Z →
  (errFunc_call (afterCalls k (getErrorFunc err count))).1
  = Returns (if bool_decide (Z.of_nat k < count)%Z then err else None).
Proof.
  intros Hc. rewrite afterCalls_getErrorFunc by done. unfold errFunc_call.
  destruct (decide (0 < count)%Z) as [Hpos|Hneg].
  - rewrite (bool_decide_eq_true_2 (0 < count)%Z) by done.
    destruct (decide (Z.of_nat k < count)%Z).
    + by rewrite !bool_decide_eq_true_2 by lia.
    + by rewrite !bool_decide_eq_false_2 by lia.
  - rewrite !(bool_decide_eq_false_2 (0 < count)%Z) by done.
    by rewrite (bool_decide_eq_false_2 (Z.of_nat k < count)%Z) by lia.
Qed.

(** X9.  The closure [getErrorFunc(err, count)] returns [err] at its
    first [count] calls and nil at every later call; the closure
    [getPanicFunc(count)] panics at its first [count] calls and returns
    nil at every later call.  With [count] zero or negative neither
    ever fails. *)
Theorem injected_closures_count_down (err : option error) (count : Z) (k : nat) :
  (count < 2 ^ 63)%Z →
  (errFunc_call (afterCalls k (getErrorFunc err count))).1
  = Returns (if bool_decide (Z.of_nat k < count)%Z then err else None)
  ∧ (errFunc_call (afterCalls k (getPanicFunc count))).1
    = (if bool_decide (Z.of_nat k < count)%Z then Panics "panic" else Returns None).
Proof.
  intros Hc. split; [by apply getErrorFunc_call_after|].
  rewrite afterCalls_getPanicFunc by done. unfold errFunc_call.
  destruct (decide (0 < count)%Z) as [Hpos|Hneg].
  - rewrite (bool_decide_eq_true_2 (0 < count)%Z) by done.
    destruct (decide (Z.of_nat k < count)%Z).
    + by rewrite !bool_decide_eq_true_2 by lia.
    + by rewrite !bool_decide_eq_false_2 by lia.
  - rewrite !(bool_decide_eq_false_2 (0 < count)%Z) by done.
    by rewrite (bool_decide_eq_false_2 (Z.of_nat k < count)%Z) by lia.
Qed.

Section Retries.
Context {Val : Type}.
Implicit Types (w : @World Val linearRetryPolicy) (body : nat → @Outcome Val).

(** X21.  A step body whose definition carries a fresh
    [linearRetryPolicy] (the retry driver as the specification
    describes it, no cancellation, preceding tasks completed): if the
    step function fails [k] times and then succeeds, with [k] at most
    [maxRetryCount], the body returns that result, the step is
    [Completed] and the report counts [k] retries; if it fails
    [maxRetryCount] times and once more, the body returns that last
    error as a step error, the step is [Failed], the report counts
    [maxRetryCount] retries and the function was called
    [maxRetryCount + 1] times. *)
Theorem linear_policy_bounds_the_retries
    fuel stepName (tasks : list asynctask.Waitable) ctx body w
    (interval : time_Duration) (maxRetries : Z) errs :
  forallb asynctask.completed tasks = true →
  policy w = Some (newLinearRetryPolicy interval maxRetries) →
  cancelAt ctx = None →
  (maxRetries < 2 ^ 63)%Z →
  failsWith body (calls w) errs →
  length errs < fuel →
  (∀ v, (Z.of_nat (length errs) ≤ Z.max 0 maxRetries)%Z →
        (body (calls w + length errs)).1 = Ok v →
        ∃ w' rep,
          instrumentedFunc fuel stepName tasks ctx body w = Some (Ok v, w')
          ∧ Retried (executionData (instance w')) = Some rep
          ∧ Count rep = length errs
          ∧ calls w' = calls w + length errs + 1
          ∧ state (instance w') = StepStateCompleted)
  ∧ (∀ e, Z.of_nat (length errs) = Z.max 0 maxRetries →
          (body (calls w + length errs)).1 = Err e →
          ∃ w' rep,
            instrumentedFunc fuel stepName tasks ctx body w
            = Some (Err (newStepError stepName e), w')
            ∧ Retried (executionData (instance w')) = Some rep
            ∧ Count rep = length errs
            ∧ calls w' = calls w + length errs + 1
            ∧ state (instance w') = StepStateFailed).
Proof.
  intros Htasks Hpol Hctx Hmax Hfails Hfuel.
  split.
  - intros v Hlen Hok.
    apply (retries_then_success fuel stepName tasks ctx body w
             (newLinearRetryPolicy interval maxRetries) errs v); try done.
    rewrite policyAllows_linear by (simpl; lia). simpl.
    apply bool_decide_eq_true_2. destruct errs; [by left | right]. cbn [length] in *. lia.
  - intros e Hlen Herr.
    apply (retries_then_refused fuel stepName tasks ctx body w
             (newLinearRetryPolicy interval maxRetries) errs e); try done.
    + rewrite policyAllows_linear by (simpl; lia). simpl.
      apply bool_decide_eq_true_2. destruct errs; [by left | right]. cbn [length] in *. lia.
    + rewrite policyAfter_linear, afterSleeps_fields by (simpl; lia). simpl.
      rewrite bool_decide_eq_false_2; [done | lia].
Qed.
End Retries.
End TestPolicy.

(* ================================================================== *)
(** ** The library of the tests' job *)
(* ================================================================== *)

Section TestLibrary.
Import asyncjob_test SqlSummaryJobLib.
Implicit Types (sql : SqlSummaryJobLib) (env : Env) (ctx : Context).

Lemma injected_None sql (key : T string) k env :
  key env = (Returns k, env) →
  injectedAt sql k = None →
  injected sql key env = (Returns None, env).
Proof.
  unfold injectedAt, injected. intros Hkey Hk.
  destruct (ErrorInjection (Params' sql)) as [m|]; simpl in *; [|done].
  unfold mbind, T_bind. rewrite Hkey, Hk. done.
Qed.

Lemma injected_Some sql (key : T string) k env a :
  key env = (Returns k, env) →
  injectedAt sql k = Some a →
  injected sql key env = ((errFunc_call (closures env a)).1, called a env).
Proof.
  unfold injectedAt, injected. intros Hkey Hk.
  destruct (ErrorInjection (Params' sql)) as [m|]; simpl in *; [|done].
  unfold mbind, T_bind. rewrite Hkey, Hk. unfold callFunc, called.
  by destruct (errFunc_call (closures env a)).
Qed.

Lemma GetConnection_not_injected sql ctx serverName env :
  injectedAt sql ("GetConnection." +:+ serverName) = None →
  GetConnection sql ctx (Some serverName) env
  = (Returns (Ok {| SqlConnection_ServerName := serverName |}),
     printed "GetConnection" env).
Proof.
  intros Hk. unfold GetConnection. unfold mbind at 1. unfold T_bind at 1.
  unfold Println at 1. unfold mbind at 1. unfold T_bind at 1.
  erewrite injected_None; [| reflexivity | exact Hk]. reflexivity.
Qed.

Lemma GetConnection_injected sql ctx serverName env a :
  injectedAt sql ("GetConnection." +:+ serverName) = Some a →
  GetConnection sql ctx (Some serverName) env
  = (match (errFunc_call (closures env a)).1 with
     | Returns (Some err) => Returns (Err err)
     | Returns None => Returns (Ok {| SqlConnection_ServerName := serverName |})
     | Panics v => Panics v
     end, called a (printed "GetConnection" env)).
Proof.
  intros Hk. unfold GetConnection. unfold mbind at 1. unfold T_bind at 1.
  unfold Println at 1. unfold mbind at 1. unfold T_bind at 1.
  erewrite injected_Some; [| reflexivity | exact Hk].
  unfold called, printed. simpl.
  by destruct (errFunc_call (closures env a)) as [[[e|]|v] f].
Qed.

Lemma GetTableClient_not_injected sql ctx conn tableName env :
  injectedAt sql ("GetTableClient." +:+ tableName) = None →
  GetTableClient sql ctx conn (Some tableName) env
  = (match conn with
     | Some conn => Returns (Ok {| SqlTableClient_ServerName := SqlConnection_ServerName conn;
                                   SqlTableClient_TableName := tableName |})
     | None => Panics "runtime error: invalid memory address or nil pointer dereference"
     end, printed ("GetTableClient with tableName: " +:+ tableName) env).
Proof.
  intros Hk. unfold GetTableClient. unfold mbind at 1. unfold T_bind at 1.
  unfold deref at 1. unfold mbind at 1. unfold T_bind at 1.
  unfold Println at 1. unfold mbind at 1. unfold T_bind at 1.
  erewrite injected_None; [| reflexivity | exact Hk]. by destruct conn.
Qed.

Lemma GetTableClient_injected sql ctx conn tableName env a :
  injectedAt sql ("GetTableClient." +:+ tableName) = Some a →
  GetTableClient sql ctx conn (Some tableName) env
  = (match (errFunc_call (closures env a)).1 with
     | Returns (Some err) => Returns (Err err)
     | Returns None =>
         match conn with
         | Some conn =>
             Returns (Ok {| SqlTableClient_ServerName := SqlConnection_ServerName conn;
                            SqlTableClient_TableName := tableName |})
         | None => Panics "runtime error: invalid memory address or nil pointer dereference"
         end
     | Panics v => Panics v
     end, called a (printed ("GetTableClient with tableName: " +:+ tableName) env)).
Proof.
  intros Hk. unfold GetTableClient. unfold mbind at 1. unfold T_bind at 1.
  unfold deref at 1. unfold mbind at 1. unfold T_bind at 1.
  unfold Println at 1. unfold mbind at 1. unfold T_bind at 1.
  erewrite injected_Some; [| reflexivity | exact Hk].
  unfold called, printed. simpl.
  destruct (errFunc_call (closures env a)) as [[[e|]|v] f]; try done. by destruct conn.
Qed.

Lemma ExecuteQuery_not_injected sql ctx tableClient query env :
  injectedAt sql ("ExecuteQuery." +:+ query) = None →
  ExecuteQuery sql ctx (Some tableClient) (Some query) env
  = (Returns (Ok (queryData tableClient query)),
     printed ("ExecuteQuery: " +:+ " " +:+ query) env).
Proof.
  intros Hk. unfold ExecuteQuery. unfold mbind at 1. unfold T_bind at 1.
  unfold deref at 1. unfold mbind at 1. unfold T_bind at 1.
  unfold Println at 1. unfold mbind at 1. unfold T_bind at 1.
  erewrite injected_None; [| reflexivity | exact Hk]. reflexivity.
Qed.

Lemma ExecuteQuery_injected sql ctx tableClient query env a :
  injectedAt sql ("ExecuteQuery." +:+ query) = Some a →
  ExecuteQuery sql ctx (Some tableClient) (Some query) env
  = (match (errFunc_call (closures env a)).1 with
     | Returns (Some err) => Returns (Err err)
     | Returns None => Returns (Ok (queryData tableClient query))
     | Panics v => Panics v
     end, called a (printed ("ExecuteQuery: " +:+ " " +:+ query) env)).
Proof.
  intros Hk. unfold ExecuteQuery. unfold mbind at 1. unfold T_bind at 1.
  unfold deref at 1. unfold mbind at 1. unfold T_bind at 1.
  unfold Println at 1. unfold mbind at 1. unfold T_bind at 1.
  erewrite injected_Some; [| reflexivity | exact Hk].
  unfold called, printed. simpl.
  by destruct (errFunc_call (closures env a)) as [[[e|]|v] f].
Qed.

Lemma CheckAuth_not_injected sql ctx env :
  injectedAt sql "CheckAuth" = None →
  CheckAuth sql ctx env = (Returns None, env).
Proof.
  intros Hk. unfold CheckAuth. unfold mbind at 1. unfold T_bind at 1.
  erewrite injected_None; [| reflexivity | exact Hk]. reflexivity.
Qed.

Lemma SummarizeQueryResult_not_injected sql ctx result1 result2 env :
  injectedAt sql "SummarizeQueryResult" = None →
  SummarizeQueryResult sql ctx (Some result1) (Some result2) env
  = (Returns (Ok {| Data1 := Data result1; Data2 := Data result2 |}),
     printed "SummarizeQueryResult" env).
Proof.
  intros Hk. unfold SummarizeQueryResult. unfold mbind at 1. unfold T_bind at 1.
  unfold Println at 1. unfold mbind at 1. unfold T_bind at 1.
  erewrite injected_None; [| reflexivity | exact Hk]. reflexivity.
Qed.

(** X10.  A method of the library fails only through an injected
    function under its own key: with a nil injection map, or with no
    entry under [GetConnection.<server>], [GetTableClient.<table>],
    [CheckAuth], [ExecuteQuery.<query>] or [SummarizeQueryResult], the
    method succeeds, returns the value made of its arguments, calls no
    injected function, and prints its one line ([CheckAuth] prints
    none).  [EmailNotification] consults no key at all. *)
Theorem methods_succeed_without_injection sql ctx env :
  (∀ serverName,
     injectedAt sql ("GetConnection." +:+ serverName) = None →
     GetConnection sql ctx (Some serverName) env
     = (Returns (Ok {| SqlConnection_ServerName := serverName |}),
        printed "GetConnection" env))
  ∧ (∀ conn tableName,
       injectedAt sql ("GetTableClient." +:+ tableName) = None →
       GetTableClient sql ctx (Some conn) (Some tableName) env
       = (Returns (Ok {| SqlTableClient_ServerName := SqlConnection_ServerName conn;
                         SqlTableClient_TableName := tableName |}),
          printed ("GetTableClient with tableName: " +:+ tableName) env))
  ∧ (injectedAt sql "CheckAuth" = None → CheckAuth sql ctx env = (Returns None, env))
  ∧ (∀ tableClient query,
       injectedAt sql ("ExecuteQuery." +:+ query) = None →
       ExecuteQuery sql ctx (Some tableClient) (Some query) env
       = (Returns (Ok (queryData tableClient query)),
          printed ("ExecuteQuery:  " +:+ query) env))
  ∧ (∀ result1 result2,
       injectedAt sql "SummarizeQueryResult" = None →
       SummarizeQueryResult sql ctx (Some result1) (Some result2) env
       = (Returns (Ok {| Data1 := Data result1; Data2 := Data result2 |}),
          printed "SummarizeQueryResult" env))
  ∧ EmailNotification sql ctx env = (Returns None, printed "EmailNotification" env).
Proof.
  split; [| split; [| split; [| split; [| split]]]].
  - intros serverName. apply GetConnection_not_injected.
  - intros conn tableName Hk. by rewrite GetTableClient_not_injected.
  - apply CheckAuth_not_injected.
  - intros tableClient query. apply ExecuteQuery_not_injected.
  - intros result1 result2. apply SummarizeQueryResult_not_injected.
  - reflexivity.
Qed.

(** X11.  A connection, a table client and a query, each step handed
    the result of the one before: with nothing injected under the three
    keys the query result records the server, the table and the query
    it was asked for, under [serverName], [tableName] and [queryName],
    and nothing else; the three lines are printed in order. *)
Theorem queryTable_records_its_arguments sql ctx serverName tableName queryString env :
  injectedAt sql ("GetConnection." +:+ serverName) = None →
  injectedAt sql ("GetTableClient." +:+ tableName) = None →
  injectedAt sql ("ExecuteQuery." +:+ queryString) = None →
  ∃ result,
    queryTable sql ctx serverName tableName queryString env
    = (Returns (Ok result),
       {| closures := closures env;
          stdout := stdout env ++ ["GetConnection";
                                   "GetTableClient with tableName: " +:+ tableName;
                                   "ExecuteQuery:  " +:+ queryString] |})
    ∧ Data result !! "serverName" = Some serverName
    ∧ Data result !! "tableName" = Some tableName
    ∧ Data result !! "queryName" = Some queryString
    ∧ size (Data result) = 3.
Proof.
  intros Hc Ht Hq. eexists. split.
  - unfold queryTable. unfold mbind at 1. unfold T_bind at 1.
    rewrite GetConnection_not_injected by done.
    unfold mbind at 1. unfold T_bind at 1.
    rewrite GetTableClient_not_injected by done.
    rewrite ExecuteQuery_not_injected by done.
    unfold printed. simpl. by rewrite <- !(assoc_L (++)).
  - simpl. split; [done|]. split; [done|]. split; [done|]. done.
Qed.

(** X12.  The chain stops at the first step that fails: when the
    function injected for [GetConnection] (or, that one absent, for
    [GetTableClient]) returns an error, the chain returns that very
    error, the later methods neither print nor call anything, and the
    injected function was called once. *)
Theorem queryTable_stops_at_the_first_failure
    sql ctx serverName tableName queryString env a err :
  (errFunc_call (closures env a)).1 = Returns (Some err) →
  (injectedAt sql ("GetConnection." +:+ serverName) = Some a →
   queryTable sql ctx serverName tableName queryString env
   = (Returns (Err err), called a (printed "GetConnection" env)))
  ∧ (injectedAt sql ("GetConnection." +:+ serverName) = None →
     injectedAt sql ("GetTableClient." +:+ tableName) = Some a →
     queryTable sql ctx serverName tableName queryString env
     = (Returns (Err err),
        called a (printed ("GetTableClient with tableName: " +:+ tableName)
                    (printed "GetConnection" env)))).
Proof.
  intros Hcall. split.
  - intros Hc. unfold queryTable. unfold mbind at 1. unfold T_bind at 1.
    rewrite (GetConnection_injected _ _ _ _ a) by done. by rewrite Hcall.
  - intros Hc Ht. unfold queryTable. unfold mbind at 1. unfold T_bind at 1.
    rewrite GetConnection_not_injected by done.
    unfold mbind at 1. unfold T_bind at 1.
    rewrite (GetTableClient_injected _ _ _ _ _ a) by done.
    change (closures (printed "GetConnection" env) a) with (closures env a).
    by rewrite Hcall.
Qed.

Lemma afterRuns_S {A} k (m : T A) env :
  afterRuns (S k) m env = (m (afterRuns k m env)).2.
Proof. reflexivity. Qed.

Lemma ExecuteQuery_closure sql ctx tableClient query a k : ∀ env,
  injectedAt sql ("ExecuteQuery." +:+ query) = Some a →
  closures (afterRuns k (ExecuteQuery sql ctx (Some tableClient) (Some query)) env) a
  = afterCalls k (closures env a).
Proof.
  intros env Hk. induction k as [|k IH]; [done|].
  rewrite afterRuns_S, afterCalls_S, <- IH.
  rewrite (ExecuteQuery_injected _ _ _ _ _ a) by done.
  unfold called, printed, withClosure. simpl. by rewrite bool_decide_eq_true_2.
Qed.

(** X13.  With [getErrorFunc(err, count)] injected under the key of a
    query, the first [count] calls of [ExecuteQuery] for that query fail
    with [err] and every later call succeeds: the map refers to the
    closure, and each call leaves it counted down. *)
Theorem ExecuteQuery_fails_as_often_as_injected
    sql ctx tableClient query env a (err : error) (count : Z) (k : nat) :
  injectedAt sql ("ExecuteQuery." +:+ query) = Some a →
  closures env a = getErrorFunc (Some err) count →
  (count < 2 ^ 63)%Z →
  let run := ExecuteQuery sql ctx (Some tableClient) (Some query) in
  (run (afterRuns k run env)).1
  = Returns (if bool_decide (Z.of_nat k < count)%Z
             then Err err else Ok (queryData tableClient query)).
Proof.
  intros Hk Hf Hc run. subst run.
  rewrite (ExecuteQuery_injected _ _ _ _ _ a) by done.
  rewrite ExecuteQuery_closure by done. rewrite Hf. simpl.
  rewrite getErrorFunc_call_after by done.
  by case_bool_decide.
Qed.

(** X14.  Nil arguments of [GetTableClient].  A nil table name panics
    before anything is printed.  A nil connection is dereferenced only
    when the result is built: the call prints its line and panics,
    unless an injected function returns an error first, which is then
    returned. *)
Theorem GetTableClient_nil_arguments sql ctx tableName env :
  (∀ conn, GetTableClient sql ctx conn None env
           = (Panics "runtime error: invalid memory address or nil pointer dereference", env))
  ∧ (injectedAt sql ("GetTableClient." +:+ tableName) = None →
     GetTableClient sql ctx None (Some tableName) env
     = (Panics "runtime error: invalid memory address or nil pointer dereference",
        printed ("GetTableClient with tableName: " +:+ tableName) env))
  ∧ (∀ a err,
       injectedAt sql ("GetTableClient." +:+ tableName) = Some a →
       (errFunc_call (closures env a)).1 = Returns (Some err) →
       (GetTableClient sql ctx None (Some tableName) env).1 = Returns (Err err)).
Proof.
  split; [done|]. split.
  - intros Hk. by rewrite GetTableClient_not_injected.
  - intros a err Hk Hcall. rewrite (GetTableClient_injected _ _ _ _ _ a) by done.
    simpl. by rewrite Hcall.
Qed.

End TestLibrary.

(* ================================================================== *)
(** ** The step body without retry policy, and the tasks it waits for *)
(* ================================================================== *)

Section PlainBody.
Context {Val : Type} {P : Type} `{asyncjob.RetryPolicy P}.
Import asyncjob.
Implicit Types (w : @World Val P) (body : nat → @Outcome Val)
               (tasks : list asynctask.Waitable).

Lemma time_Sub_elapsed (t : time_Time) (elapsed : N) :
  time_Sub (t + Z.of_N elapsed)%Z t = Z.min (Z.of_N elapsed) maxDuration.
Proof.
  unfold time_Sub, maxDuration, minDuration.
  replace (t + Z.of_N elapsed - t)%Z with (Z.of_N elapsed) by lia.
  destruct (Z.ltb_spec (2 ^ 63 - 1) (Z.of_N elapsed)); [lia|].
  destruct (Z.ltb_spec (Z.of_N elapsed) (- 2 ^ 63)); lia.
Qed.

Local Arguments time_Sub : simpl never.

Lemma instrumentedFunc_plain fuel stepName tasks ctx body w :
  forallb asynctask.completed tasks = true →
  policy w = None →
  let elapsed := (body (calls w)).2 in
  let d := Z.min (Z.of_N elapsed) maxDuration in
  let final := match (body (calls w)).1 with
               | Ok _ => StepStateCompleted
               | Err _ => StepStateFailed
               end in
  ∃ w',
    instrumentedFunc fuel stepName tasks ctx body w
    = Some (match (body (calls w)).1 with
            | Ok result => Ok result
            | Err err => Err (newStepError stepName err)
            end, w')
    ∧ trace w' = trace w ++ [SetStartTime (clock w); SetState StepStateRunning;
                             Invoke (calls w); SetDuration d; SetState final]
    ∧ calls w' = S (calls w)
    ∧ state (instance w') = final
    ∧ executionData (instance w')
      = {| StartTime := clock w; Duration := d;
           Retried := Retried (executionData (instance w)) |}
    ∧ clock w' = (clock w + Z.of_N elapsed)%Z.
Proof.
  intros Htasks Hpol. simpl.
  unfold instrumentedFunc, waitAll. unfold mbind at 1. unfold M_bind at 1.
  rewrite (WaitAll_completed ctx tasks Htasks).
  destruct w as [now pol [sd st [t0 d0 rep] tk] n tr]. simpl in Hpol. subst pol.
  unfold runStepFunc, get_policy, time_Now, set_StartTime, set_state, set_Duration,
    get_instance, write, invoke, with_executionData, mbind, M_bind, mret, M_ret.
  simpl. destruct (body n) as [r elapsed]. simpl.
  rewrite time_Sub_elapsed.
  destruct r as [v|e]; simpl; eexists; (split; [reflexivity|]); simpl;
    rewrite <- !(assoc_L (++)); simpl; repeat split.
Qed.


(** X16.  The step function is not started before its preceding
    tasks are done: unless every preceding task completed, the body, if
    it returns at all, returns the precedent-step failure, and it has
    written nothing and called nothing. *)
Theorem step_function_waits_for_preceding_tasks fuel stepName tasks ctx body w r w' :
  forallb asynctask.completed tasks = false →
  instrumentedFunc fuel stepName tasks ctx body w = Some (r, w') →
  r = Err (newJobError ErrPrecedentStepFailure "")
  ∧ w' = w.
Proof.
  intros Htasks. unfold instrumentedFunc, waitAll.
  unfold mbind at 1. unfold M_bind at 1. unfold asynctask.WaitAll.
  destruct (asynctask.firstFailure tasks) as [e|]; simpl.
  - by intros [= <- <-].
  - by rewrite Htasks.
Qed.

Lemma getDependsOnStepInstances_from_spec (ji : @JobInstance Val P) (deps : list string) :
  ∀ (accI : list StepInstance) (accT : list asynctask.Waitable),
    match getDependsOnStepInstances_from deps ji accI accT with
    | Ok (instances, precedingTasks) =>
        ∃ found,
          instances = accI ++ found
          ∧ precedingTasks = accT ++ (StepInstance_Waitable <$> found)
          ∧ Forall2 (λ d si, GetStepInstance ji d = Some si) deps found
    | Err err =>
        ∃ before d after,
          deps = before ++ d :: after
          ∧ Forall (λ d, is_Some (GetStepInstance ji d)) before
          ∧ GetStepInstance ji d = None
          ∧ err = errorString ("runtime step [" +:+ d +:+ "] not found")
    end.
Proof.
  induction deps as [|d deps IH]; intros accI accT; simpl.
  - exists []. by rewrite !app_nil_r.
  - destruct (GetStepInstance ji d) as [si|] eqn:Hd.
    + specialize (IH (accI ++ [si]) (accT ++ [StepInstance_Waitable si])).
      destruct (getDependsOnStepInstances_from deps ji _ _) as [[instances ts]|err].
      * destruct IH as (found & -> & -> & HF). exists (si :: found).
        rewrite <- !(assoc_L (++)). simpl. split; [done|]. split; [done|]. by constructor.
      * destruct IH as (before & d' & after & -> & Hb & Hd' & ->).
        exists (d :: before), d', after. repeat split; try done.
        constructor; [by rewrite Hd | done].
    + exists [], d, deps. repeat split; done.
Qed.

(** X17.  [getDependsOnStepInstances] follows [DependsOn] in order:
    when it succeeds, the i-th instance is the one registered under the
    i-th name and the i-th task is that instance's task; it fails at the
    first name without an instance, all names before it having one, and
    the error names it. *)
Theorem getDependsOnStepInstances_follows_DependsOn
    (stepD : @StepDefinition Val P) (ji : @JobInstance Val P) :
  match getDependsOnStepInstances stepD ji with
  | Ok (precedingInstances, precedingTasks) =>
      Forall2 (λ d si, GetStepInstance ji d = Some si) (DependsOn stepD) precedingInstances
      ∧ precedingTasks = StepInstance_Waitable <$> precedingInstances
  | Err err =>
      ∃ before d after,
        DependsOn stepD = before ++ d :: after
        ∧ Forall (λ d, is_Some (GetStepInstance ji d)) before
        ∧ GetStepInstance ji d = None
        ∧ err = errorString ("runtime step [" +:+ d +:+ "] not found")
  end.
Proof.
  unfold getDependsOnStepInstances.
  pose proof (getDependsOnStepInstances_from_spec ji (DependsOn stepD) [] []) as Hs.
  destruct (getDependsOnStepInstances_from _ ji [] []) as [[instances ts]|err]; [|done].
  destruct Hs as (found & -> & -> & HF). done.
Qed.

Lemma precedingTasksOf_missing (stepD : @StepDefinition Val P) (ji : @JobInstance Val P) d :
  d ∈ DependsOn stepD →
  GetStepInstance ji d = None →
  precedingTasksOf stepD ji = [].
Proof.
  intros Hin Hd. unfold precedingTasksOf, getDependsOnStepInstances.
  pose proof (getDependsOnStepInstances_from_spec ji (DependsOn stepD) [] []) as Hs.
  destruct (getDependsOnStepInstances_from _ ji [] []) as [[instances ts]|err]; [|done].
  destruct Hs as (found & _ & _ & HF).
  apply list_elem_of_lookup in Hin as [i Hi].
  destruct (Forall2_lookup_l _ _ _ _ _ HF Hi) as (si & _ & Hsi). congruence.
Qed.

End PlainBody.

(* ================================================================== *)
(** ** Steps as parents of steps *)
(* ================================================================== *)

Section ParentFacts.
Context {Val : Type} {P : Type}.
Import asyncjob.
Implicit Types (j : @JobDefinition Val P) (sd step p : @StepDefinition Val P).

Lemma StepAfter_registered_parent j a bCtx stepName p (f : ContinueFunc) :
  wellFormed j →
  steps j !! GetName p = Some p →
  ∃ child,
    (StepAfter a bCtx j stepName p f []).1 = Ok child
    ∧ GetName child = stepName
    ∧ DependsOn child = [GetName p]
    ∧ (Sealed j = false → steps j !! stepName = None →
       let j' := (StepAfter a bCtx j stepName p f []).2 in
       steps j' = <[stepName := child]> (steps j)
       ∧ hasEdge (stepsDag j') p child).
Proof.
  intros Hw Hp. unfold StepAfter, parentMissing, GetStep. rewrite Hp.
  rewrite bool_decide_eq_true_2 by done. simpl.
  unfold getDependsOnSteps, DependsOn. simpl. unfold GetStep. rewrite Hp. simpl.
  eexists. split; [reflexivity|]. split; [reflexivity|]. split; [reflexivity|].
  intros Hs Hn.
  match goal with |- context [JobDefinition_AddStep j ?s ?ps] =>
    destruct (JobDefinition_AddStep_adds j s ps Hw Hs Hn) as (S1 & _ & _ & _ & E1 & _)
  end.
  { by constructor. }
  split; [exact S1|]. by inversion E1.
Qed.

(** X19.  On a job definition under construction [StepFromJobInput]
    never fails for want of its parent: the root is a step of the job.
    Without further options it returns a step that depends on the root
    alone, and, the job unsealed and the name free, the step is
    registered and the graph has the edge from the root to it. *)
Theorem StepFromJobInput_hangs_the_step_on_the_root j a bCtx stepName (f : ContinueFunc) :
  Built j →
  ∃ stepD,
    (StepFromJobInput a bCtx j stepName f []).1 = Ok stepD
    ∧ GetName stepD = stepName
    ∧ DependsOn stepD = [GetName (RootStep j)]
    ∧ (Sealed j = false → steps j !! stepName = None →
       let j' := (StepFromJobInput a bCtx j stepName f []).2 in
       steps j' = <[stepName := stepD]> (steps j)
       ∧ hasEdge (stepsDag j') (RootStep j) stepD).
Proof.
  intros Hb. pose proof (Built_wellFormed j Hb) as Hw.
  unfold StepFromJobInput, RootStep.
  apply StepAfter_registered_parent; [done|]. by destruct Hw as (_ & _ & W3 & _).
Qed.

(** X20.  What a builder returns can be the parent of the next step:
    after [AddStep] on an unsealed job, under a free name, [StepAfter]
    with the returned definition as parent succeeds; the child depends
    on that step, both are registered, and the graph has the edge from
    the parent to the child. *)
Theorem added_step_can_be_a_parent j a bCtx stepName (f : AsyncFunc) opts stepD
    a' stepName' (f' : ContinueFunc) :
  Built j →
  Sealed j = false →
  steps j !! stepName = None →
  (AddStep a bCtx j stepName f opts).1 = Ok stepD →
  stepName' ≠ stepName →
  steps j !! stepName' = None →
  let j1 := (AddStep a bCtx j stepName f opts).2 in
  let j2 := (StepAfter a' bCtx j1 stepName' stepD f' []).2 in
  ∃ child,
    (StepAfter a' bCtx j1 stepName' stepD f' []).1 = Ok child
    ∧ DependsOn child = [stepName]
    ∧ steps j2 !! stepName = Some stepD
    ∧ steps j2 !! stepName' = Some child
    ∧ hasEdge (stepsDag j2) stepD child.
Proof.
  intros Hb Hs Hn Hadd Hne Hn'. simpl.
  pose proof (Built_wellFormed j Hb) as Hw.
  pose proof (AddStep_wellFormed j a bCtx stepName f opts Hw) as Hw1.
  assert (H1 : GetName stepD = stepName
               ∧ steps (AddStep a bCtx j stepName f opts).2 = <[stepName := stepD]> (steps j)
               ∧ Sealed (AddStep a bCtx j stepName f opts).2 = false).
  { revert Hadd. unfold AddStep.
    pose proof (getDependsOnSteps_spec j (newStepDefinition a stepName stepTypeTask opts))
      as Hspec.
    destruct (firstMissing j _); [by rewrite Hspec|].
    destruct Hspec as (found & -> & HF).
    pose proof (found_registered j _ _ Hw HF) as Hreg.
    destruct (bool_decide (length found = 0)) eqn:Hlen; simpl; intros [= <-].
    - match goal with |- context [JobDefinition_AddStep j ?s ?ps] =>
        destruct (JobDefinition_AddStep_adds j s ps Hw Hs Hn) as (S1 & _ & _ & S4 & _)
      end.
      { apply Forall_app. split; [done|]. constructor; [|done].
        by destruct Hw as (_ & _ & W3 & _). }
      split; [done|]. split; [exact S1|]. unfold Sealed. by rewrite S4.
    - match goal with |- context [JobDefinition_AddStep j ?s ?ps] =>
        destruct (JobDefinition_AddStep_adds j s ps Hw Hs Hn) as (S1 & _ & _ & S4 & _)
      end.
      { done. }
      split; [done|]. split; [exact S1|]. unfold Sealed. by rewrite S4. }
  destruct H1 as (Hname & Hsteps & Hsealed).
  destruct (StepAfter_registered_parent (AddStep a bCtx j stepName f opts).2
              a' bCtx stepName' stepD f' Hw1) as (child & E & _ & D & Hreg).
  { rewrite Hsteps, Hname. apply lookup_insert_eq. }
  destruct Hreg as (S2 & G2); [done | |].
  { rewrite Hsteps. by rewrite lookup_insert_ne. }
  exists child. split; [exact E|]. split; [by rewrite D, Hname|].
  rewrite S2. split; [|split; [apply lookup_insert_eq | exact G2]].
  rewrite lookup_insert_ne by done. rewrite Hsteps. apply lookup_insert_eq.
Qed.

(** X22.  [StepAfterBoth] with two parents that are steps of the job
    (they may be the same step): it succeeds; the child depends on the
    two parents, in that order; and, the job unsealed and the name free,
    the child is registered and the graph has an edge from each of the
    parents to it. *)
Theorem StepAfterBoth_joins_two_parents j a bCtx stepName (parentStepT parentStepS : StepDefinition)
    (f : AfterBothFunc) :
  Built j →
  steps j !! GetName parentStepT = Some parentStepT →
  steps j !! GetName parentStepS = Some parentStepS →
  ∃ child,
    (StepAfterBoth a bCtx j stepName parentStepT parentStepS f []).1 = Ok child
    ∧ GetName child = stepName
    ∧ DependsOn child = [GetName parentStepT; GetName parentStepS]
    ∧ (Sealed j = false → steps j !! stepName = None →
       let j' := (StepAfterBoth a bCtx j stepName parentStepT parentStepS f []).2 in
       steps j' = <[stepName := child]> (steps j)
       ∧ hasEdge (stepsDag j') parentStepT child
       ∧ hasEdge (stepsDag j') parentStepS child).
Proof.
  intros Hb HT HS. pose proof (Built_wellFormed j Hb) as Hw.
  unfold StepAfterBoth, parentMissing, GetStep. rewrite HT, HS.
  rewrite !bool_decide_eq_true_2 by done. simpl.
  unfold getDependsOnSteps, DependsOn. simpl. unfold GetStep. rewrite HT, HS. simpl.
  eexists. split; [reflexivity|]. split; [reflexivity|]. split; [reflexivity|].
  intros Hs Hn.
  match goal with |- context [JobDefinition_AddStep j ?s ?ps] =>
    destruct (JobDefinition_AddStep_adds j s ps Hw Hs Hn) as (S1 & _ & _ & _ & E1 & _)
  end.
  { constructor; [done|]. by constructor. }
  split; [exact S1|].
  inversion E1 as [|? ? ET E2]; subst. inversion E2 as [|? ? ES _]; subst.
  by split.
Qed.

End ParentFacts.

(* ================================================================== *)
(** ** The statements above on the tests' job *)
(* ================================================================== *)

Section SqlSummaryGraph.
Import graph asyncjob asyncjob_test sqlSummary.

Let g0 : Graph StepDef := NewGraph connectStepDefinition.
Let g : Graph StepDef := doOps g0 graphCalls.
Let edge : Edge StepDef := {| From := rootStep newJob; To := checkAuthStep |}.

(** The root, once added, is still there after the other calls. *)
Lemma graph_only_grows_witness :
  nodes (doOps (doOps g0 [OpAddNode (rootStep newJob)]) (tail graphCalls)) !! "sqlSummaryJob"
  = Some (rootStep newJob).
Proof.
  apply (proj1 (graph_only_grows (tail graphCalls) (doOps g0 [OpAddNode (rootStep newJob)]))).
  vm_compute. reflexivity.
Defined.

(** The edge from the root to [CheckAuth], connected once more. *)
Lemma Connect_keeps_parallel_edges_witness :
  nodeEdges (Connect (Connect g "sqlSummaryJob" "CheckAuth").2 "sqlSummaryJob" "CheckAuth").2
    !! "sqlSummaryJob"
  = Some (default [] (nodeEdges g !! "sqlSummaryJob") ++ [edge; edge]).
Proof.
  destruct (Connect_keeps_parallel_edges g "sqlSummaryJob" "CheckAuth"
              (rootStep newJob) checkAuthStep) as (_ & _ & E & _).
  - vm_compute. reflexivity.
  - vm_compute. reflexivity.
  - exact E.
Defined.

(** The one out-edge of the root, in the list handed to the template. *)
Lemma out_edges_rendered_in_Connect_order_witness :
  ∃ before after,
    collectEdges g (map_to_list (nodeEdges g))
    = before ++ ((λ edge, edgeSpecFunc g (From edge) (To edge)) <$> [edge]) ++ after.
Proof.
  apply (out_edges_rendered_in_Connect_order g (map_to_list (nodeEdges g)) "sqlSummaryJob").
  - unfold MapRange. reflexivity.
  - vm_compute. reflexivity.
Defined.

(** The two nodes of the job's graph have different IDs. *)
Lemma rendered_node_IDs_are_distinct_witness :
  NoDup (ID <$> collectNodes (map_to_list (nodes g))).
Proof.
  apply (rendered_node_IDs_are_distinct connectStepDefinition graphCalls).
  unfold MapRange. reflexivity.
Defined.

(** The graph of a new job, which has the root and nothing else,
    rendered along two traversals. *)
Lemma ToDotGraph_of_a_single_node_is_deterministic_witness :
  let g1 := stepsDag newJob in
  ToDotGraph_along digraphTemplate g1 (map_to_list (nodes g1)) (map_to_list (nodeEdges g1))
  = ToDotGraph_along digraphTemplate g1 (reverse (map_to_list (nodes g1)))
                                        (reverse (map_to_list (nodeEdges g1))).
Proof.
  intros g1.
  apply (ToDotGraph_of_a_single_node_is_deterministic digraphTemplate g1).
  - vm_compute. lia.
  - vm_compute. lia.
  - eexists _, _. repeat split; unfold MapRange; reflexivity.
  - eexists _, _. repeat split; unfold MapRange; apply reverse_Permutation.
Defined.

(** Two of the two [AddNode] calls and one of the two [Connect] calls
    returned nil. *)
Lemma every_successful_call_is_rendered_once_witness :
  length (collectNodes (map_to_list (nodes g))) = 2
  ∧ length (collectEdges g (map_to_list (nodeEdges g))) = 1.
Proof.
  destruct (every_successful_call_is_rendered_once connectStepDefinition graphCalls
              (map_to_list (nodes g)) (map_to_list (nodeEdges g))) as [Hn He].
  - unfold MapRange. reflexivity.
  - unfold MapRange. reflexivity.
  - split.
    + rewrite Hn. vm_compute. reflexivity.
    + fold g0 in He. fold g in He. rewrite He. vm_compute. reflexivity.
Defined.

End SqlSummaryGraph.

Section SqlSummaryInjection.
Import asyncjob asyncjob_test SqlSummaryJobLib.

(** The policy of [TestSimpleJobPanic], two retries: after two sleeps
    it refuses, and before any it allows a run of two retries. *)
Lemma linearRetryPolicy_allows_maxRetryCount_retries_witness :
  ShouldRetry (afterSleeps 2 (newLinearRetryPolicy 10000000%Z 2%Z)) schemaError
  = (false, afterSleeps 2 (newLinearRetryPolicy 10000000%Z 2%Z))
  ∧ policyAllows (newLinearRetryPolicy 10000000%Z 2%Z) [schemaError; schemaError] = true.
Proof.
  split.
  - apply (linearRetryPolicy_allows_maxRetryCount_retries 10000000%Z 2%Z 2 schemaError []).
    simpl. lia.
  - apply (linearRetryPolicy_allows_maxRetryCount_retries 10000000%Z 2%Z 0 schemaError
             [schemaError; schemaError]).
    simpl. lia.
Defined.

(** [getErrorFunc(err, 1)] at its second call, [getPanicFunc(4)] at its
    second call. *)
Lemma injected_closures_count_down_witness :
  (errFunc_call (afterCalls 1 (getErrorFunc (Some schemaError) 1))).1 = Returns None
  ∧ (errFunc_call (afterCalls 1 (getPanicFunc 4))).1 = Panics "panic".
Proof.
  split.
  - apply (injected_closures_count_down (Some schemaError) 1 1). lia.
  - apply (injected_closures_count_down None 4 1). lia.
Defined.

(** Nothing is injected for the connection to [server1]. *)
Lemma methods_succeed_without_injection_witness :
  GetConnection testLib background (Some "server1") testEnv
  = (Returns (Ok {| SqlConnection_ServerName := "server1" |}),
     printed "GetConnection" testEnv).
Proof.
  apply (proj1 (methods_succeed_without_injection testLib background testEnv)).
  vm_compute. reflexivity.
Defined.

(** The first query of the tests' job. *)
Lemma queryTable_records_its_arguments_witness :
  ∃ result,
    (queryTable testLib background "server1" "table1" "query1" testEnv).1
    = Returns (Ok result)
    ∧ Data result !! "tableName" = Some "table1".
Proof.
  destruct (queryTable_records_its_arguments testLib background
              "server1" "table1" "query1" testEnv) as (result & E & _ & T & _).
  - vm_compute. reflexivity.
  - vm_compute. reflexivity.
  - vm_compute. reflexivity.
  - exists result. split; [by rewrite E | exact T].
Defined.

(** The connection to [server2] fails. *)
Lemma queryTable_stops_at_the_first_failure_witness :
  queryTable testLib background "server2" "table1" "query1" testEnv
  = (Returns (Err (errorString "InternalServerError")),
     called 2 (printed "GetConnection" testEnv)).
Proof.
  apply (proj1 (queryTable_stops_at_the_first_failure testLib background
                  "server2" "table1" "query1" testEnv 2
                  (errorString "InternalServerError") eq_refl)).
  vm_compute. reflexivity.
Defined.

(** The second query fails once, and succeeds when it is run again. *)
Lemma ExecuteQuery_fails_as_often_as_injected_witness :
  let tableClient := {| SqlTableClient_ServerName := "server1";
                        SqlTableClient_TableName := "table2" |} in
  let run := ExecuteQuery testLib background (Some tableClient) (Some "query2") in
  (run testEnv).1 = Returns (Err schemaError)
  ∧ (run (afterRuns 1 run testEnv)).1 = Returns (Ok (queryData tableClient "query2")).
Proof.
  intros tableClient run. split.
  - apply (ExecuteQuery_fails_as_often_as_injected testLib background tableClient
             "query2" testEnv 1 schemaError 1 0).
    + vm_compute. reflexivity.
    + reflexivity.
    + lia.
  - apply (ExecuteQuery_fails_as_often_as_injected testLib background tableClient
             "query2" testEnv 1 schemaError 1 1).
    + vm_compute. reflexivity.
    + reflexivity.
    + lia.
Defined.

(** A table client for [table1] from a nil connection. *)
Lemma GetTableClient_nil_arguments_witness :
  GetTableClient testLib background None (Some "table1") testEnv
  = (Panics "runtime error: invalid memory address or nil pointer dereference",
     printed "GetTableClient with tableName: table1" testEnv).
Proof.
  apply (proj1 (proj2 (GetTableClient_nil_arguments testLib background "table1" testEnv))).
  vm_compute. reflexivity.
Defined.

End SqlSummaryInjection.

Section SqlSummarySteps.
Import asyncjob asyncjob_test sqlSummary.


(** [CheckAuth] after a task that completed and one that failed. *)
Lemma step_function_waits_for_preceding_tasks_witness :
  let w := startWorld 100%Z checkAuthStep in
  let tasks : list asynctask.Waitable :=
    [asynctask.Completed (); asynctask.Failed queryError] in
  ∃ r w',
    instrumentedFunc 1 "CheckAuth" tasks background (CheckAuth background) w = Some (r, w')
    ∧ r = Err (newJobError ErrPrecedentStepFailure "")
    ∧ w' = w.
Proof.
  intros w tasks.
  assert (E : instrumentedFunc 1 "CheckAuth" tasks background (CheckAuth background) w
              = Some (Err (newJobError ErrPrecedentStepFailure ""), w))
    by (vm_compute; reflexivity).
  destruct (step_function_waits_for_preceding_tasks 1 "CheckAuth" tasks background
              (CheckAuth background) w _ _ eq_refl E) as (R & W).
  eexists _, _. split; [exact E|]. split; [exact R | exact W].
Defined.


(** A step that takes the job input, on the new job. *)
Lemma StepFromJobInput_hangs_the_step_on_the_root_witness :
  ∃ stepD,
    (StepFromJobInput 3 background newJob "serverName" GetConnection []).1 = Ok stepD
    ∧ DependsOn stepD = ["sqlSummaryJob"].
Proof.
  destruct (StepFromJobInput_hangs_the_step_on_the_root newJob 3 background
              "serverName" GetConnection (Built_new 1 "sqlSummaryJob"))
    as (stepD & E & _ & D & _).
  exists stepD. split; [exact E | exact D].
Defined.

(** [GetConnection] after [CheckAuth]. *)
Lemma added_step_can_be_a_parent_witness :
  ∃ stepD child,
    withCheckAuth.1 = Ok stepD
    ∧ (StepAfter 3 background withCheckAuth.2 "GetConnection" stepD GetConnection []).1
      = Ok child
    ∧ DependsOn child = ["CheckAuth"].
Proof.
  destruct withCheckAuth.1 as [stepD|err] eqn:Hadd.
  - destruct (added_step_can_be_a_parent newJob 2 background "CheckAuth" CheckAuth []
                stepD 3 "GetConnection" GetConnection (Built_new 1 "sqlSummaryJob"))
      as (child & E & D & _).
    + reflexivity.
    + reflexivity.
    + exact Hadd.
    + discriminate.
    + reflexivity.
    + exists stepD, child. split; [reflexivity|]. split; [exact E | exact D].
  - vm_compute in Hadd. discriminate Hadd.
Defined.

(** A step after the root and [CheckAuth]. *)
Lemma StepAfterBoth_joins_two_parents_witness :
  ∃ stepD child,
    withCheckAuth.1 = Ok stepD
    ∧ (StepAfterBoth 3 background withCheckAuth.2 "QueryTable1"
         (rootStep newJob) stepD ExecuteQuery_failing []).1 = Ok child
    ∧ DependsOn child = ["sqlSummaryJob"; "CheckAuth"].
Proof.
  destruct withCheckAuth.1 as [stepD|err] eqn:Hadd.
  - assert (Hreg : steps withCheckAuth.2 !! GetName stepD = Some stepD).
    { revert Hadd. vm_compute. intros [= <-]. reflexivity. }
    assert (Hname : GetName stepD = "CheckAuth").
    { revert Hadd. vm_compute. intros [= <-]. reflexivity. }
    destruct (StepAfterBoth_joins_two_parents withCheckAuth.2 3 background "QueryTable1"
                (rootStep newJob) stepD ExecuteQuery_failing)
      as (child & E & _ & D & _).
    + apply Built_AddStep, Built_new.
    + vm_compute. reflexivity.
    + exact Hreg.
    + exists stepD, child. split; [reflexivity|]. split; [exact E|].
      rewrite D, Hname. reflexivity.
  - vm_compute in Hadd. discriminate Hadd.
Defined.

(** [QueryTable1] with the policy of [TestJobStepRetry], three retries,
    and a step function that fails twice. *)
Lemma linear_policy_bounds_the_retries_witness :
  let w := startWorld 100%Z queryTable1Step in
  ∃ w' rep,
    instrumentedFunc 3 "QueryTable1" [] background failsTwice w = Some (Ok 7, w')
    ∧ Retried (executionData (instance w')) = Some rep
    ∧ Count rep = 2.
Proof.
  intros w.
  destruct (proj1 (linear_policy_bounds_the_retries 3 "QueryTable1" [] background
                     failsTwice w 3000000%Z 3%Z [transientError; transientError]
                     eq_refl eq_refl eq_refl ltac:(lia) eq_refl ltac:(simpl; lia)) 7)
    as (w' & rep & E & R & C & _).
  - simpl. lia.
  - reflexivity.
  - exists w', rep. split; [exact E|]. split; [exact R | exact C].
Defined.

End SqlSummarySteps.
